(** * Verification of the BSBI search-engine core
    (compression.py, bsbi.py and the pagination of main.py of
    duren-search-engine-be)

    The development embeds the postings codecs, the block inverter, the
    external merge and the two term-at-a-time scorers as Rocq functions and
    proves the properties the specification states about them. *)

From Stdlib Require Import ZArith List Lia Bool.
From Stdlib Require Import Strings.Byte Floats.
From Stdlib Require Uint63.
From stdpp Require Import base option list gmap strings sorting.
From Equations Require Import Equations.

Local Open Scope Z_scope.

(* ===================================================================== *)
(** * Python outcomes *)
(* ===================================================================== *)

(** The exceptions the modelled code can raise. *)
Inductive exn : Type :=
| OverflowError
| ValueError
| IndexError
| StopIteration
| TypeError.

(** A Python call either returns a value or raises. *)
Inductive result (A : Type) : Type :=
| Ok (a : A)
| Raise (e : exn).
Arguments Ok {A} a.
Arguments Raise {A} e.

#[global] Instance result_ret : MRet result := fun A a => Ok a.
#[global] Instance result_bind : MBind result := fun A B f r =>
  match r with
  | Ok a => f a
  | Raise e => Raise e
  end.

(* ===================================================================== *)
(** * The [array] module: typecode ["L"] *)
(* ===================================================================== *)

(** [array.array("L", ...)] stores C [unsigned long] items in native byte
    order.  The item is 4 bytes wide on ILP32 and LLP64 targets and 8 bytes
    wide on LP64 ones. *)
Inductive long_width : Type := L4 | L8.
Inductive byte_order : Type := LittleEndian | BigEndian.

Record platform : Type := Platform {
  long : long_width;
  order : byte_order
}.

Definition itemsize (p : platform) : nat :=
  match long p with L4 => 4%nat | L8 => 8%nat end.

(** The deployment target of the service: 64-bit Linux. *)
Definition linux64 : platform := Platform L8 LittleEndian.

Definition byte_of_Z (z : Z) : byte :=
  default x00 (Byte.of_N (Z.to_N (z mod 256))).

Definition Z_of_byte (b : byte) : Z := Z.of_N (Byte.to_N b).

(** Little-endian image of [v] on [w] bytes, and its inverse. *)
Fixpoint le_bytes (w : nat) (v : Z) : list byte :=
  match w with
  | O => []
  | S w' => byte_of_Z (v mod 256) :: le_bytes w' (v / 256)
  end.

Fixpoint le_value (bs : list byte) : Z :=
  match bs with
  | [] => 0
  | b :: bs' => Z_of_byte b + 256 * le_value bs'
  end.

Definition item_bytes (p : platform) (v : Z) : list byte :=
  match order p with
  | LittleEndian => le_bytes (itemsize p) v
  | BigEndian => reverse (le_bytes (itemsize p) v)
  end.

Definition item_value (p : platform) (bs : list byte) : Z :=
  match order p with
  | LittleEndian => le_value bs
  | BigEndian => le_value (reverse bs)
  end.

Definition item_max (p : platform) : Z := 2 ^ (8 * Z.of_nat (itemsize p)).

(** [array.array("L", l)]: every item must fit an unsigned long. *)
Fixpoint array_L (p : platform) (l : list Z) : result (list Z) :=
  match l with
  | [] => Ok []
  | x :: l' =>
      if (0 <=? x) && (x <? item_max p)
      then a ← array_L p l'; Ok (x :: a)
      else Raise OverflowError
  end.

(** [a.tobytes()] *)
Definition tobytes (p : platform) (a : list Z) : list byte :=
  concat (map (item_bytes p) a).

(** Cuts [bs] into consecutive items of [w] bytes; [n] bounds the number
    of items. *)
Fixpoint chunks (n w : nat) (bs : list byte) : list (list byte) :=
  match n with
  | O => []
  | S n' =>
      match bs with
      | [] => []
      | _ :: _ => take w bs :: chunks n' w (drop w bs)
      end
  end.

(** [a = array.array("L"); a.frombytes(bs)]: the length of [bs] must be a
    multiple of the item size. *)
Definition frombytes (p : platform) (bs : list byte) : result (list Z) :=
  if (length bs mod itemsize p =? 0)%nat
  then Ok (map (item_value p) (chunks (length bs) (itemsize p) bs))
  else Raise ValueError.

(* ===================================================================== *)
(** * NumPy on lists of Python integers *)
(* ===================================================================== *)

(** [np.asarray] on a list of Python integers picks the element type
    from the values: [int64] when every value fits a signed 64-bit word,
    [uint64] when none does and every value fits an unsigned 64-bit word,
    [float64] when the two kinds are mixed, and [object], an array of
    Python integers, as soon as a value fits neither.  An empty list gives
    an empty [float64] array.  The default integer of NumPy is taken to be
    64 bits wide, as it is on 64-bit Linux. *)
Inductive dtype : Type := Int64 | UInt64 | Float64 | Object.

Definition fits_int64 (z : Z) : bool := (- 2 ^ 63 <=? z) && (z <? 2 ^ 63).
Definition fits_uint64 (z : Z) : bool := (0 <=? z) && (z <? 2 ^ 64).

Definition np_dtype (l : list Z) : dtype :=
  match l with
  | [] => Float64
  | _ =>
      if forallb fits_int64 l then Int64
      else if forallb (fun z => fits_int64 z || fits_uint64 z) l then
        if forallb (fun z => negb (fits_int64 z)) l then UInt64 else Float64
      else Object
  end.

(** Signed 64-bit arithmetic wraps around silently. *)
Definition wrap64 (z : Z) : Z := (z + 2 ^ 63) mod 2 ^ 64 - 2 ^ 63.

(** The binary64 number nearest to the integer [z], ties to the even
    significand of 53 bits.  It is an integer again.  (No result in this
    file comes near the largest binary64 number.) *)
Definition float64_round (z : Z) : Z :=
  let a := Z.abs z in
  if a <? 2 ^ 53 then z
  else
    let e := Z.log2 a - 52 in
    let q := a / 2 ^ e in
    let r := a mod 2 ^ e in
    let q' :=
      if 2 * r <? 2 ^ e then q
      else if 2 ^ e <? 2 * r then q + 1
      else if Z.even q then q else q + 1 in
    Z.sgn z * (q' * 2 ^ e).

(** What an array of type [t] holds for the exact value [z], of an
    element or of the result of an operation.  A [float64] array holds
    floats; they are given by their values, which are integers. *)
Definition np_store (t : dtype) (z : Z) : Z :=
  match t with
  | Int64 => wrap64 z
  | UInt64 => z mod 2 ^ 64
  | Float64 => float64_round z
  | Object => z
  end.

Fixpoint np_diff_as (t : dtype) (l : list Z) : list Z :=
  match l with
  | [] => []
  | a :: l' =>
      match l' with
      | [] => []
      | b :: _ => np_store t (np_store t b - np_store t a) :: np_diff_as t l'
      end
  end.

(** [np.diff(l).tolist()] *)
Definition np_diff (l : list Z) : list Z := np_diff_as (np_dtype l) l.

Fixpoint np_cumsum_from (t : dtype) (acc : Z) (l : list Z) : list Z :=
  match l with
  | [] => []
  | x :: l' =>
      let s := np_store t (acc + np_store t x) in s :: np_cumsum_from t s l'
  end.

(** [np.cumsum(l).tolist()]; the items are Python floats when
    [np_dtype l] is [Float64], and Python integers otherwise. *)
Definition np_cumsum (l : list Z) : list Z := np_cumsum_from (np_dtype l) 0 l.

(* ===================================================================== *)
(** * compression.py *)
(* ===================================================================== *)

Module StandardPostings.

Definition encode (p : platform) (postings_list : list Z) : result (list byte) :=
  a ← array_L p postings_list; Ok (tobytes p a).

Definition decode (p : platform) (encoded_postings_list : list byte) : result (list Z) :=
  frombytes p encoded_postings_list.

Definition encode_tf (p : platform) (tf_list : list Z) : result (list byte) :=
  encode p tf_list.

Definition decode_tf (p : platform) (encoded_tf_list : list byte) : result (list Z) :=
  decode p encoded_tf_list.

End StandardPostings.

Module VBEPostings.

(** The [while True] loop of [vb_encode_number]: [bytes.insert(0, number % 128)],
    leave when [number < 128], otherwise [number //= 128]. *)
Equations? vb_encode_loop (number : Z) (bytes : list Z) : list Z
  by wf (Z.to_nat (Z.log2 number)) lt :=
  vb_encode_loop number bytes with Z_lt_dec number 128 := {
    | left _ := (number mod 128) :: bytes;
    | right _ := vb_encode_loop (number / 128) ((number mod 128) :: bytes) }.
Proof.
  assert (Hlog : 7 <= Z.log2 number) by (apply (Z.log2_le_pow2 number 7); lia).
  change 128 with (2 ^ 7).
  rewrite <- Z.shiftr_div_pow2 by lia.
  rewrite Z.log2_shiftr by lia.
  lia.
Qed.

(** [bytes[-1] += 128] *)
Fixpoint add_last (bytes : list Z) : list Z :=
  match bytes with
  | [] => []
  | [b] => [b + 128]
  | b :: bytes' => b :: add_last bytes'
  end.

Definition vb_encode_number (number : Z) : list Z :=
  add_last (vb_encode_loop number []).

Definition vb_encode (p : platform) (list_of_numbers : list Z) : result (list byte) :=
  let bytestream := concat (map vb_encode_number list_of_numbers) in
  a ← array_L p bytestream; Ok (tobytes p a).

(** When [np.diff([0] + postings_list)] is a [float64] array the gaps are
    floats: [vb_encode_number] computes on them, and [array.array("L", ...)]
    refuses the first of its results with a [TypeError]. *)
Definition encode (p : platform) (postings_list : list Z) : result (list byte) :=
  match np_dtype (0 :: postings_list) with
  | Float64 => Raise TypeError
  | _ => vb_encode p (np_diff (0 :: postings_list))
  end.

Definition encode_tf (p : platform) (tf_list : list Z) : result (list byte) :=
  vb_encode p tf_list.

(** The loop of [vb_decode], started with accumulator [n]. *)
Fixpoint vb_decode_from (n : Z) (encoded_bytestream : list Z) : list Z :=
  match encoded_bytestream with
  | [] => []
  | byte :: rest =>
      if byte <? 128
      then vb_decode_from (128 * n + byte) rest
      else (128 * n + byte - 128) :: vb_decode_from 0 rest
  end.

Definition vb_decode (encoded_bytestream : list Z) : list Z :=
  vb_decode_from 0 encoded_bytestream.

(** The list returned holds Python floats, given by their values, when
    the decoded gaps mix numbers below and from [2 ^ 63] on. *)
Definition decode (p : platform) (encoded_postings_list : list byte) : result (list Z) :=
  decoded_postings_list ← frombytes p encoded_postings_list;
  Ok (np_cumsum (vb_decode decoded_postings_list)).

(** Iterating a [bytes] object yields its bytes as integers. *)
Definition decode_tf (encoded_tf_list : list byte) : result (list Z) :=
  Ok (vb_decode (map Z_of_byte encoded_tf_list)).

End VBEPostings.

(* ===================================================================== *)
(** * util.py *)
(* ===================================================================== *)

Module IdMap.

(** Modelled from the spec: the class [IdMap] of util.py, which is not
    part of the sources at hand.  It is a registry of strings with ids
    assigned densely from 0 in first-seen order, kept here as the list of
    registered strings: the id of a string is its position. *)
Definition t : Type := list string.

Definition empty : t := [].

(** The id of [s], when [s] is registered. *)
Definition lookup (m : t) (s : string) : option Z :=
  (fun ix => Z.of_nat (fst ix)) <$> list_find (fun x => x = s) m.

(** Modelled from the spec: [m[s]] for a string [s] returns the id of [s]
    and registers [s] under the next id when it is new (the
    auto-create-on-lookup behaviour the block parser relies on). *)
Definition get_id (m : t) (s : string) : Z * t :=
  match lookup m s with
  | Some i => (i, m)
  | None => (Z.of_nat (length m), m ++ [s])
  end.

(** Modelled from the spec: [m[i]] for an integer [i] is the inverse
    lookup; an id that was never assigned is an error. *)
Definition get_str (m : t) (i : Z) : result string :=
  if i <? 0 then Raise IndexError
  else match m !! Z.to_nat i with
       | Some s => Ok s
       | None => Raise IndexError
       end.

End IdMap.

(** One entry of an index: [(termId, postings, tf_list)]. *)
Definition triple : Type := Z * list Z * list Z.

Definition termId (x : triple) : Z := fst (fst x).
Definition postings_of (x : triple) : list Z := snd (fst x).
Definition tfs_of (x : triple) : list Z := snd x.

(** Modelled from the spec: [merge_and_sort_posts_and_tfs] of util.py, the
    two-pointer merge of two postings lists sorted by document id into one
    sorted, duplicate-free list.  A document id met on both sides is kept
    once, with the two frequencies added. *)
Fixpoint merge_and_sort_posts_and_tfs (posts_tfs1 posts_tfs2 : list (Z * Z))
  : list (Z * Z) :=
  let fix merge_right (posts_tfs2 : list (Z * Z)) : list (Z * Z) :=
    match posts_tfs1, posts_tfs2 with
    | [], _ => posts_tfs2
    | _, [] => posts_tfs1
    | (doc1, tf1) :: rest1, (doc2, tf2) :: rest2 =>
        if doc1 <? doc2 then
          (doc1, tf1) :: merge_and_sort_posts_and_tfs rest1 posts_tfs2
        else if doc2 <? doc1 then
          (doc2, tf2) :: merge_right rest2
        else
          (doc1, tf1 + tf2) :: merge_and_sort_posts_and_tfs rest1 rest2
    end
  in merge_right posts_tfs2.

(* ===================================================================== *)
(** * index.py *)
(* ===================================================================== *)

(** Modelled from the spec: [InvertedIndexReader] of index.py.  An open
    reader is the sequence of triples a full iteration yields, in directory
    order, and the document-length table. *)
Record InvertedIndexReader : Type := Reader {
  triples : list triple;
  reader_doc_length : gmap Z Z
}.

(** Modelled from the spec: [get_postings_list] returns the postings and
    term frequencies of a term, and two empty lists for a term that is not
    in the directory. *)
Definition get_postings_list (index : InvertedIndexReader) (term_id : Z)
  : list Z * list Z :=
  match list_find (fun x => termId x = term_id) (triples index) with
  | Some (_, x) => (postings_of x, tfs_of x)
  | None => ([], [])
  end.

(** Modelled from the spec: [InvertedIndexWriter] of index.py, as the
    sequence of triples appended so far and the document-length table. *)
Record InvertedIndexWriter : Type := Writer {
  appended : list triple;
  writer_doc_length : gmap Z Z
}.

Definition new_writer : InvertedIndexWriter := Writer [] ∅.

Definition add_doc_length (doc_length : gmap Z Z) (posting : Z * Z) : gmap Z Z :=
  let '(doc_id, tf) := posting in
  <[doc_id := default 0 (doc_length !! doc_id) + tf]> doc_length.

(** Modelled from the spec: [append] records the entry and adds each term
    frequency to the running length of its document. *)
Definition append (index : InvertedIndexWriter) (term_id : Z)
    (postings_list tf_list : list Z) : InvertedIndexWriter :=
  Writer (appended index ++ [(term_id, postings_list, tf_list)])
         (fold_left add_doc_length (zip postings_list tf_list)
                    (writer_doc_length index)).

(* ===================================================================== *)
(** * bsbi.py: index construction *)
(* ===================================================================== *)

(** [sorted(d.keys())] for a dictionary with integer keys. *)
Definition sorted_keys {V : Type} (d : gmap Z V) : list Z :=
  merge_sort Z.le (fst <$> map_to_list d).

(** The body of the first loop of [write_to_index]. *)
Definition count_pair (term_dict : gmap Z (gmap Z Z)) (td : Z * Z)
  : gmap Z (gmap Z Z) :=
  let '(term_id, doc_id) := td in
  let docs := default ∅ (term_dict !! term_id) in
  <[term_id := <[doc_id := default 0 (docs !! doc_id) + 1]> docs]> term_dict.

(** The body of the second loop of [write_to_index]. *)
Definition append_term (term_dict : gmap Z (gmap Z Z))
    (index : InvertedIndexWriter) (term_id : Z) : InvertedIndexWriter :=
  let docs := default ∅ (term_dict !! term_id) in
  let postings_list := sorted_keys docs in
  let tf_list := (fun doc_id => default 0 (docs !! doc_id)) <$> postings_list in
  append index term_id postings_list tf_list.

Definition write_to_index (td_pairs : list (Z * Z)) (index : InvertedIndexWriter)
  : InvertedIndexWriter :=
  let term_dict := fold_left count_pair td_pairs ∅ in
  fold_left (append_term term_dict) (sorted_keys term_dict) index.

(** [heapq.merge] with the term id as key keeps one cursor per input and
    yields, each time, the head with the least key, the earliest input
    winning among equal keys.  [select_min] is one such step: the head
    chosen and the inputs left. *)
Fixpoint select_min (its : list (list triple)) : option (triple * list (list triple)) :=
  match its with
  | [] => None
  | it :: rest =>
      match it, select_min rest with
      | [], None => None
      | [], Some (y, rest') => Some (y, [] :: rest')
      | x :: it', None => Some (x, it' :: rest)
      | x :: it', Some (y, rest') =>
          if termId x <=? termId y then Some (x, it' :: rest)
          else Some (y, it :: rest')
      end
  end.

Fixpoint heapq_merge_steps (n : nat) (its : list (list triple)) : list triple :=
  match n with
  | O => []
  | S n' =>
      match select_min its with
      | None => []
      | Some (x, its') => x :: heapq_merge_steps n' its'
      end
  end.

(** The whole merged stream: one step per item of the inputs. *)
Definition heapq_merge (its : list (list triple)) : list triple :=
  heapq_merge_steps (length (concat its)) its.

(** The body of the loop of [merge_index]; the state is the writer and the
    accumulator [(curr, postings, tf_list)]. *)
Definition merge_step (st : InvertedIndexWriter * triple) (item : triple)
  : InvertedIndexWriter * triple :=
  let '(merged_index, (curr, postings, tf_list)) := st in
  let '(t, postings_, tf_list_) := item in
  if t =? curr then
    let zip_p_tf :=
      merge_and_sort_posts_and_tfs (zip postings tf_list) (zip postings_ tf_list_) in
    (merged_index, (curr, fst <$> zip_p_tf, snd <$> zip_p_tf))
  else
    (append merged_index curr postings tf_list, (t, postings_, tf_list_)).

(** [merge_index]: [next(merged_iter)] raises [StopIteration] on an empty
    stream, before anything is appended. *)
Definition merge_index (indices : list InvertedIndexReader)
    (merged_index : InvertedIndexWriter) : InvertedIndexWriter * result unit :=
  match heapq_merge (triples <$> indices) with
  | [] => (merged_index, Raise StopIteration)
  | first :: rest =>
      let '(merged_index, (curr, postings, tf_list)) :=
        fold_left merge_step rest (merged_index, first) in
      (append merged_index curr postings tf_list, Ok tt)
  end.

(* ===================================================================== *)
(** * bsbi.py: ranked retrieval *)
(* ===================================================================== *)

(** What the scorers take from outside: the NLTK tokenizer, stemmer and
    stopword list, and the floating-point operations computed by the
    interpreter and the C library.  Scores are binary64 floats. *)
Class externals : Type := Externals {
  lower : string → string;
  word_tokenize : string → list string;
  stem : string → string;
  stop_words : gset string;
  (** [a / b] on two Python integers, [b] not zero *)
  truediv : Z → Z → float;
  (** the C library's [log10] *)
  log10 : float → float;
  (** [math.log10] on a positive Python integer *)
  log10_int : Z → float
}.

(** [math.log10(x)] for a float: a domain error when [x <= 0]. *)
Definition math_log10 `{externals} (x : float) : result float :=
  if PrimFloat.leb x 0 then Raise ValueError else Ok (log10 x).

(** [math.log10(n)] for an integer. *)
Definition math_log10_int `{externals} (n : Z) : result float :=
  if n <=? 0 then Raise ValueError else Ok (log10_int n).

(** The part of a [BSBIIndex] object that retrieval reads and writes. *)
Record BSBIIndex : Type := BSBI {
  term_id_map : IdMap.t;
  doc_id_map : IdMap.t
}.

Definition pre_processing_text `{externals} (content : string) : list string :=
  filter (fun term => term ∉ stop_words) (stem <$> word_tokenize (lower content)).

(** The dictionary [scores], in insertion order:
    [scores[doc_id] = scores.get(doc_id, 0) + score]. *)
Fixpoint dict_add (scores : list (Z * float)) (doc_id : Z) (score : float)
  : list (Z * float) :=
  match scores with
  | [] => [(doc_id, PrimFloat.add 0 score)]
  | (d, s) :: rest =>
      if d =? doc_id then (d, PrimFloat.add s score) :: rest
      else (d, s) :: dict_add rest doc_id score
  end.

(** [sorted(scores.items(), key=lambda x: x[1], reverse=True)]: a stable
    sort by decreasing score, comparing scores with [<] only.  Items of
    equal score keep the order of [scores]. *)
Fixpoint insert_desc (x : Z * float) (l : list (Z * float)) : list (Z * float) :=
  match l with
  | [] => [x]
  | y :: l' =>
      if PrimFloat.ltb (snd x) (snd y) then y :: insert_desc x l' else x :: l
  end.

Definition sorted_desc (items : list (Z * float)) : list (Z * float) :=
  foldr insert_desc [] items.

(** The slice [l[:k]]; a negative [k] counts from the end. *)
Definition slice_to {A : Type} (k : Z) (l : list A) : list A :=
  if k <? 0 then take (length l - Z.to_nat (- k)) l else take (Z.to_nat k) l.

(** [[(score, self.doc_id_map[doc_id]) for doc_id, score in ranked]] *)
Definition resolve_docs (doc_id_map : IdMap.t) (ranked : list (Z * float))
  : result (list (float * string)) :=
  mapM (fun '(doc_id, score) =>
          path ← IdMap.get_str doc_id_map doc_id; Ok (score, path)) ranked.

Section Retrieval.
Context `{externals}.

(** The inner loop of [retrieve_tfidf] over [zip(postings_list, tf_list)]. *)
Fixpoint tfidf_postings (idf : float) (scores : list (Z * float))
    (posts : list (Z * Z)) : result (list (Z * float)) :=
  match posts with
  | [] => Ok scores
  | (doc_id, tf) :: rest =>
      wtD ← (if 0 <? tf
             then l ← math_log10_int tf; Ok (PrimFloat.add 1 l)
             else Ok 0%float);
      let score := PrimFloat.mul idf wtD in
      tfidf_postings idf (dict_add scores doc_id score) rest
  end.

(** The inner loop of [retrieve_bm25]. *)
Fixpoint bm25_postings (idf : float) (scores : list (Z * float))
    (posts : list (Z * Z)) : result (list (Z * float)) :=
  match posts with
  | [] => Ok scores
  | (doc_id, tf) :: rest =>
      l ← math_log10_int tf;
      let score := PrimFloat.mul (PrimFloat.add 1 l) idf in
      bm25_postings idf (dict_add scores doc_id score) rest
  end.

(** The loop of [retrieve_tfidf] over the query terms.  It threads
    [self.term_id_map], which a lookup may extend, and stops at the first
    exception. *)
Fixpoint tfidf_terms (merged_index : InvertedIndexReader) (N : Z)
    (term_id_map : IdMap.t) (scores : list (Z * float))
    (query_terms : list string) : IdMap.t * result (list (Z * float)) :=
  match query_terms with
  | [] => (term_id_map, Ok scores)
  | term :: rest =>
      let '(term_id, term_id_map) := IdMap.get_id term_id_map term in
      let '(postings_list, tf_list) := get_postings_list merged_index term_id in
      let df := Z.of_nat (length postings_list) in
      if 0 <? df then
        match math_log10 (truediv N df) with
        | Raise e => (term_id_map, Raise e)
        | Ok idf =>
            match tfidf_postings idf scores (zip postings_list tf_list) with
            | Raise e => (term_id_map, Raise e)
            | Ok scores => tfidf_terms merged_index N term_id_map scores rest
            end
        end
      else tfidf_terms merged_index N term_id_map scores rest
  end.

Definition retrieve_tfidf (self : BSBIIndex) (merged_index : InvertedIndexReader)
    (query : string) (k : Z) : BSBIIndex * result (list (float * string)) :=
  let query_terms := pre_processing_text query in
  let N := Z.of_nat (size (reader_doc_length merged_index)) in
  let '(term_id_map, r) :=
    tfidf_terms merged_index N (term_id_map self) [] query_terms in
  let self := BSBI term_id_map (doc_id_map self) in
  (self,
   scores ← r;
   let ranked_docs := sorted_desc scores in
   resolve_docs (doc_id_map self) (slice_to k ranked_docs)).

(** The loop of [retrieve_bm25] over the query terms. *)
Fixpoint bm25_terms (merged_index : InvertedIndexReader) (N : Z)
    (term_id_map : IdMap.t) (scores : list (Z * float))
    (query_terms : list string) : IdMap.t * result (list (Z * float)) :=
  match query_terms with
  | [] => (term_id_map, Ok scores)
  | term :: rest =>
      let '(term_id, term_id_map) := IdMap.get_id term_id_map term in
      let '(postings_list, tf_list) := get_postings_list merged_index term_id in
      let df := Z.of_nat (length postings_list) in
      if 0 <? df then
        match math_log10 (truediv N df) with
        | Raise e => (term_id_map, Raise e)
        | Ok idf =>
            match bm25_postings idf scores (zip postings_list tf_list) with
            | Raise e => (term_id_map, Raise e)
            | Ok scores => bm25_terms merged_index N term_id_map scores rest
            end
        end
      else bm25_terms merged_index N term_id_map scores rest
  end.

Definition retrieve_bm25 (self : BSBIIndex) (merged_index : InvertedIndexReader)
    (query : string) (k : Z) (k1 b : float)
  : BSBIIndex * result (list (float * string)) :=
  let query_terms := pre_processing_text query in
  let N := Z.of_nat (size (reader_doc_length merged_index)) in
  let '(term_id_map, r) :=
    bm25_terms merged_index N (term_id_map self) [] query_terms in
  let self := BSBI term_id_map (doc_id_map self) in
  (self,
   scores ← r;
   let ranked_docs := sorted_desc scores in
   resolve_docs (doc_id_map self) (slice_to k ranked_docs)).

End Retrieval.

(* ===================================================================== *)
(** * bsbi.py: block parsing and the indexing run *)
(* ===================================================================== *)

(** The loop of [parsing_block] over the terms of one document. *)
Fixpoint parse_terms (term_id_map : IdMap.t) (doc_id : Z)
    (td_pairs : list (Z * Z)) (preprocessed_tokens : list string)
  : IdMap.t * list (Z * Z) :=
  match preprocessed_tokens with
  | [] => (term_id_map, td_pairs)
  | term :: rest =>
      let '(term_id, term_id_map) := IdMap.get_id term_id_map term in
      parse_terms term_id_map doc_id (td_pairs ++ [(term_id, doc_id)]) rest
  end.

(** The loop of [parsing_block] over the files of the block, each given by
    its path and its content, in the order of [os.listdir]. *)
Fixpoint parse_files `{externals} (self : BSBIIndex) (td_pairs : list (Z * Z))
    (files : list (string * string)) : BSBIIndex * list (Z * Z) :=
  match files with
  | [] => (self, td_pairs)
  | (path, doc) :: rest =>
      let '(doc_id, doc_id_map) := IdMap.get_id (doc_id_map self) path in
      let preprocessed_tokens := pre_processing_text doc in
      let '(term_id_map, td_pairs) :=
        parse_terms (term_id_map self) doc_id td_pairs preprocessed_tokens in
      parse_files (BSBI term_id_map doc_id_map) td_pairs rest
  end.

Definition parsing_block `{externals} (self : BSBIIndex)
    (files : list (string * string)) : BSBIIndex * list (Z * Z) :=
  parse_files self [] files.

(** The first loop of [do_indexing]: each block, given by its files, is
    parsed and inverted into an intermediate index of its own; the blocks
    come in the sorted order of their directories. *)
Fixpoint index_blocks `{externals} (self : BSBIIndex)
    (blocks : list (list (string * string))) : BSBIIndex * list InvertedIndexWriter :=
  match blocks with
  | [] => (self, [])
  | files :: rest =>
      let '(self, td_pairs) := parsing_block self files in
      let index := write_to_index td_pairs new_writer in
      let '(self, intermediate_indices) := index_blocks self rest in
      (self, index :: intermediate_indices)
  end.

(** Modelled from the spec: a reader opened on the file of a closed writer
    yields the entries that were appended, in their order. *)
Definition open_reader (index : InvertedIndexWriter) : InvertedIndexReader :=
  Reader (appended index) (writer_doc_length index).

Definition do_indexing `{externals} (self : BSBIIndex)
    (blocks : list (list (string * string)))
  : BSBIIndex * InvertedIndexWriter * result unit :=
  let '(self, intermediate_indices) := index_blocks self blocks in
  let '(merged_index, outcome) :=
    merge_index (open_reader <$> intermediate_indices) new_writer in
  (self, merged_index, outcome).

(* ===================================================================== *)
(** * main.py: pagination *)
(* ===================================================================== *)

(** A bound of a slice, for a list of length [n]: a negative bound counts
    from the end, and both ends are clamped to the list. *)
Definition slice_bound (n i : Z) : Z :=
  if i <? 0 then Z.max 0 (i + n) else Z.min i n.

(** The slice [l[a:b]]. *)
Definition slice {A : Type} (a b : Z) (l : list A) : list A :=
  let n := Z.of_nat (length l) in
  let start := slice_bound n a in
  let stop := slice_bound n b in
  take (Z.to_nat (stop - start)) (drop (Z.to_nat start) l).

(** [math.ceil(a / b)] for [b] not zero.  The quotient is a float, and its
    ceiling is the exact one for lists shorter than [2 ^ 53]. *)
Definition ceil_div (a b : Z) : Z := - ((- a) / b).

Record PaginatedDocuments (A : Type) : Type := Paginated {
  current_page : Z;
  last_page : Z;
  per_page : Z;
  total : Z;
  data : list A
}.
Arguments Paginated {A} _ _ _ _ _.
Arguments current_page {A} _.
Arguments last_page {A} _.
Arguments per_page {A} _.
Arguments total {A} _.
Arguments data {A} _.

(** [paginate]; [None] stands for the [ZeroDivisionError] of [limit = 0]. *)
Definition paginate {A : Type} (data : list A) (page limit : Z)
  : option (PaginatedDocuments A) :=
  let page := if page <? 1 then 1 else page in
  if limit =? 0 then None
  else
    let last_page := ceil_div (Z.of_nat (length data)) limit in
    Some (Paginated page
                    (if last_page =? 0 then 1 else last_page)
                    limit
                    (Z.of_nat (length data))
                    (slice ((page - 1) * limit) (page * limit) data)).

(* ===================================================================== *)
(** * Notions used by the statements and the proofs *)
(* ===================================================================== *)

(** ** Codec *)

(** Reading digits in base [W]. *)
Definition horner (W : Z) (h : Z) (ds : list Z) : Z :=
  fold_left (fun h d => W * h + d) ds h.

(** What the byte-wise decoder reads back from a number written on words:
    its base-128 digits, read in base [128 ^ itemsize]. *)
Definition word_base (p : platform) : Z := 128 ^ Z.of_nat (itemsize p).

Definition stretch (p : platform) (number : Z) : Z :=
  horner (word_base p) 0 (VBEPostings.vb_encode_loop number []).

(** The accumulator of the byte-wise decoder between two words. *)
Definition carry (p : platform) (h : Z) : Z :=
  match order p with
  | LittleEndian => 128 ^ Z.of_nat (itemsize p - 1) * h
  | BigEndian => h
  end.

Definition word (p : platform) (d : Z) : list Z := Z_of_byte <$> item_bytes p d.

(** The number of base-128 digits of a natural number. *)
Definition base128_digits (n : Z) : nat := S (Z.to_nat (Z.log2 n / 7)).

Definition total_digits (l : list Z) : nat := sum_list (base128_digits <$> l).

(** ** Block inversion *)

(** How many times the pair [(t, d)] occurs in [td_pairs]. *)
Definition occurrences (t d : Z) (td_pairs : list (Z * Z)) : Z :=
  Z.of_nat (length (filter (fun x => x = (t, d)) td_pairs)).

(** The dictionary of dictionaries built by the first loop, read at a
    term and a document. *)
Definition term_dict_lookup (term_dict : gmap Z (gmap Z Z)) (t d : Z) : option Z :=
  default ∅ (term_dict !! t) !! d.

(** The entry the second loop appends for one term. *)
Definition term_entry (term_dict : gmap Z (gmap Z Z)) (term_id : Z) : triple :=
  let docs := default ∅ (term_dict !! term_id) in
  (term_id, sorted_keys docs,
   (fun doc_id => default 0 (docs !! doc_id)) <$> sorted_keys docs).

(** ** External merge *)

(** The stream [heapq.merge] yields for two inputs: the smaller head first,
    the left one on a tie. *)
Fixpoint merge2_stream (l1 l2 : list triple) : list triple :=
  let fix merge_right (l2 : list triple) : list triple :=
    match l1, l2 with
    | [], _ => l2
    | _, [] => l1
    | x :: l1', y :: l2' =>
        if termId x <=? termId y then x :: merge2_stream l1' l2
        else y :: merge_right l2'
    end
  in merge_right l2.

(** The accumulator after an item with the same term id. *)
Definition merge_entries (acc item : triple) : triple :=
  let zip_p_tf :=
    merge_and_sort_posts_and_tfs (zip (postings_of acc) (tfs_of acc))
                                 (zip (postings_of item) (tfs_of item)) in
  (termId acc, fst <$> zip_p_tf, snd <$> zip_p_tf).

(** What the loop of [merge_index] appends, the last flush included, when
    it starts with accumulator [acc] and reads [stream]. *)
Fixpoint grouped (acc : triple) (stream : list triple) : list triple :=
  match stream with
  | [] => [acc]
  | item :: rest =>
      if termId item =? termId acc then grouped (merge_entries acc item) rest
      else acc :: grouped item rest
  end.

Definition grouped_stream (stream : list triple) : list triple :=
  match stream with
  | [] => []
  | first :: rest => grouped first rest
  end.

(** The merge of two directories, term by term. *)
Fixpoint merge2 (l1 l2 : list triple) : list triple :=
  let fix merge_right (l2 : list triple) : list triple :=
    match l1, l2 with
    | [], _ => l2
    | _, [] => l1
    | x :: l1', y :: l2' =>
        if termId x <? termId y then x :: merge2 l1' l2
        else if termId y <? termId x then y :: merge_right l2'
        else merge_entries x y :: merge2 l1' l2'
    end
  in merge_right l2.

(** Term ids strictly ascending. *)
Definition ascending (l : list triple) : Prop := StronglySorted Z.lt (termId <$> l).

Definition above (c : Z) (l : list triple) : Prop := Forall (fun y => c < termId y) l.

(** An index whose postings lists are strictly ascending and co-indexed
    with their term frequencies. *)
Definition postings_wf (l : list triple) : Prop :=
  Forall (fun x => StronglySorted Z.lt (postings_of x)
                   /\ length (tfs_of x) = length (postings_of x)) l.

(** ** Retrieval *)

(** The loop over the query terms, with the inner loop as a parameter:
    the common shape of [tfidf_terms] and [bm25_terms]. *)
Fixpoint score_terms `{externals}
    (inner : float -> list (Z * float) -> list (Z * Z) -> result (list (Z * float)))
    (merged_index : InvertedIndexReader) (N : Z)
    (term_id_map : IdMap.t) (scores : list (Z * float))
    (query_terms : list string) : IdMap.t * result (list (Z * float)) :=
  match query_terms with
  | [] => (term_id_map, Ok scores)
  | term :: rest =>
      let '(term_id, term_id_map) := IdMap.get_id term_id_map term in
      let '(postings_list, tf_list) := get_postings_list merged_index term_id in
      let df := Z.of_nat (length postings_list) in
      if 0 <? df then
        match math_log10 (truediv N df) with
        | Raise e => (term_id_map, Raise e)
        | Ok idf =>
            match inner idf scores (zip postings_list tf_list) with
            | Raise e => (term_id_map, Raise e)
            | Ok scores => score_terms inner merged_index N term_id_map scores rest
            end
        end
      else score_terms inner merged_index N term_id_map scores rest
  end.

(** What follows the loop in both scorers. *)
Definition ranked_top (self : BSBIIndex) (k : Z)
    (scored : IdMap.t * result (list (Z * float)))
  : BSBIIndex * result (list (float * string)) :=
  (BSBI (fst scored) (doc_id_map self),
   scores ← snd scored;
   resolve_docs (doc_id_map self) (slice_to k (sorted_desc scores))).

(** Every term id of the index was assigned by the vocabulary. *)
Definition covers (vocabulary : IdMap.t) (idx : InvertedIndexReader) : Prop :=
  Forall (fun x => termId x < Z.of_nat (length vocabulary)) (triples idx).


(** The scores the loop computes when unknown terms are skipped and the
    vocabulary is only read. *)
Fixpoint known_terms `{externals}
    (inner : float -> list (Z * float) -> list (Z * Z) -> result (list (Z * float)))
    (vocabulary : IdMap.t) (idx : InvertedIndexReader) (N : Z)
    (scores : list (Z * float)) (query_terms : list string)
  : result (list (Z * float)) :=
  match query_terms with
  | [] => Ok scores
  | term :: rest =>
      match IdMap.lookup vocabulary term with
      | None => known_terms inner vocabulary idx N scores rest
      | Some term_id =>
          let '(postings_list, tf_list) := get_postings_list idx term_id in
          let df := Z.of_nat (length postings_list) in
          if df =? 0 then known_terms inner vocabulary idx N scores rest
          else
            idf ← math_log10 (truediv N df);
            scores ← inner idf scores (zip postings_list tf_list);
            known_terms inner vocabulary idx N scores rest
      end
  end.

(** [a] is not strictly below [b]. *)
Definition not_below (a b : float) : Prop := PrimFloat.ltb a b = false.

(** Every stored term frequency is at least 1. *)
Definition tfs_positive (idx : InvertedIndexReader) : Prop :=
  Forall (fun x => Forall (fun tf => 1 <= tf) (tfs_of x)) (triples idx).


(** ** TF-IDF as the specification words it *)

Section TfidfBySpec.
Context `{externals}.

(** [weight = 1 + log10(tf)] if [tf > 0], else [0] *)
Definition spec_weight (tf : Z) : float :=
  if 0 <? tf then PrimFloat.add 1 (log10_int tf) else 0%float.

(** What one term adds: [idf * weight] for every [(docId, tf)] of its
    postings, in their order. *)
Definition spec_term_contributions (idf : float) (posts : list (Z * Z))
  : list (Z * float) :=
  (fun '(doc_id, tf) => (doc_id, PrimFloat.mul idf (spec_weight tf))) <$> posts.

(** Term at a time: a term unknown to the vocabulary is skipped, and so is
    a term without postings; otherwise [idf = log10(N / df)].  The result
    is the sequence of all the pairs of a document and an amount to add to
    its score, in the order of the query terms. *)
Fixpoint spec_contributions (vocabulary : IdMap.t) (idx : InvertedIndexReader)
    (N : Z) (query_terms : list string) : result (list (Z * float)) :=
  match query_terms with
  | [] => Ok []
  | term :: rest =>
      match IdMap.lookup vocabulary term with
      | None => spec_contributions vocabulary idx N rest
      | Some term_id =>
          let '(postings, tfs) := get_postings_list idx term_id in
          let df := Z.of_nat (length postings) in
          if df =? 0 then spec_contributions vocabulary idx N rest
          else
            idf ← math_log10 (truediv N df);
            later ← spec_contributions vocabulary idx N rest;
            Ok (spec_term_contributions idf (zip postings tfs) ++ later)
      end
  end.

(** The running score of a document: the amounts added to it, one after
    the other, from 0. *)
Definition running_score (contributions : list (Z * float)) (doc_id : Z) : float :=
  fold_left (fun score '(d, amount) =>
               if d =? doc_id then PrimFloat.add score amount else score)
            contributions 0%float.

(** The documents sorted by score, descending: every document that was
    added to is there once, with its running score, and no score is
    followed by a strictly larger one.  The order among equal scores is
    left open. *)
Definition ranked_by_spec (contributions ranked : list (Z * float)) : Prop :=
  NoDup ranked.*1
  /\ (forall doc_id, doc_id ∈ ranked.*1 <-> doc_id ∈ contributions.*1)
  /\ Forall (fun '(doc_id, score) => score = running_score contributions doc_id) ranked
  /\ Sorted (fun a b => not_below (snd a) (snd b)) ranked.

(** The top [k] pairs of score and document path, the path resolved by the
    inverse lookup; an id that does not resolve is the error of that
    lookup. *)
Definition top_by_spec (documents : IdMap.t) (k : Z) (ranked : list (Z * float))
    (outcome : result (list (float * string))) : Prop :=
  let top := take (Z.to_nat k) ranked in
  match outcome with
  | Ok r =>
      Forall2 (fun '(score, path) '(doc_id, score') =>
                 score = score' /\ IdMap.get_str documents doc_id = Ok path) r top
  | Raise e => exists doc_id, doc_id ∈ top.*1 /\ IdMap.get_str documents doc_id = Raise e
  end.

(** [outcome] is what the specification asks of a TF-IDF retrieval. *)
Definition tfidf_by_spec (vocabulary documents : IdMap.t)
    (idx : InvertedIndexReader) (query : string) (k : Z)
    (outcome : result (list (float * string))) : Prop :=
  let N := Z.of_nat (size (reader_doc_length idx)) in
  match spec_contributions vocabulary idx N (pre_processing_text query) with
  | Raise e => outcome = Raise e
  | Ok contributions =>
      exists ranked,
        ranked_by_spec contributions ranked /\ top_by_spec documents k ranked outcome
  end.

End TfidfBySpec.

(** The dictionary [scores] after the additions [contributions]. *)
Definition accumulate (scores : list (Z * float)) (contributions : list (Z * float))
  : list (Z * float) :=
  fold_left (fun scores '(doc_id, amount) => dict_add scores doc_id amount)
            contributions scores.

(** ** Data for the examples *)

(** Two blocks with disjoint documents. *)
Definition block_a : InvertedIndexReader :=
  Reader [(0, [1; 4], [2; 1]); (2, [4], [3])] ∅.
Definition block_b : InvertedIndexReader :=
  Reader [(0, [7], [5]); (1, [7; 9], [1; 1])] ∅.

Definition float_of_Z (z : Z) : float := PrimFloat.of_uint63 (Uint63.of_Z z).

(** An environment for the examples: a query is one token, nothing is
    stemmed or stopped, division is the binary64 one, and the logarithm is
    replaced by a function that agrees with it at 1 and at 2, the only
    arguments the examples reach. *)
Definition example_externals : externals := {|
  lower := fun s => s;
  word_tokenize := fun s => if decide (s = EmptyString) then [] else [s];
  stem := fun s => s;
  stop_words := ∅;
  truediv := fun a b => PrimFloat.div (float_of_Z a) (float_of_Z b);
  log10 := fun x => PrimFloat.mul (PrimFloat.sub x 1) 0x1.34413509f79ffp-2%float;
  log10_int := fun n =>
    PrimFloat.mul (PrimFloat.sub (float_of_Z n) 1) 0x1.34413509f79ffp-2%float
|}.

(** The collection of two documents, A = "cat dog" and B = "dog dog fish". *)
Definition toy_self : BSBIIndex := BSBI ["cat"; "dog"; "fish"] ["A"; "B"].

Definition toy_index : InvertedIndexReader :=
  Reader [(0, [0], [1]); (1, [0; 1], [1; 2]); (2, [1], [1])]
         (<[0 := 2]> (<[1 := 3]> ∅)).

(** An index over the vocabulary of the examples with an entry under the
    id 3, which the vocabulary has not assigned. *)
Definition stray_index : InvertedIndexReader :=
  Reader [(3, [0], [1])] (<[0 := 2]> (<[1 := 3]> ∅)).

(** ** Parsing, inversion and merge of whole blocks *)

(** The tokens of a block with the path of their document, in reading order. *)
Definition block_tokens `{externals} (files : list (string * string))
  : list (string * string) :=
  concat ((fun '(path, doc) => (fun term => (term, path)) <$> pre_processing_text doc)
            <$> files).

(** A pair read back through the two maps. *)
Definition resolve_pair (self : BSBIIndex) (td : Z * Z) : result string * result string :=
  (IdMap.get_str (term_id_map self) td.1, IdMap.get_str (doc_id_map self) td.2).

(** A term id resolves to a token of the blocks. *)
Definition names_token `{externals} (vocabulary : IdMap.t)
    (blocks : list (list (string * string))) (t : Z) (term : string) : Prop :=
  IdMap.get_str vocabulary t = Ok term
  /\ exists files path, files ∈ blocks /\ (term, path) ∈ block_tokens files.

(** The sum of a list of integers. *)
Definition sum_Z (l : list Z) : Z := foldr Z.add 0 l.

(** Term ids in non-decreasing order. *)
Definition nondecreasing (l : list triple) : Prop :=
  StronglySorted (fun a b => termId a <= termId b) l.

(* ===================================================================== *)
(** * Proofs *)
(* ===================================================================== *)

(** ** The array codec *)

Lemma Z_of_byte_range (b : byte) : 0 <= Z_of_byte b < 256.
Proof.
  unfold Z_of_byte. pose proof (Byte.to_N_bounded b). lia.
Qed.

Lemma Z_of_byte_of_Z (z : Z) : 0 <= z < 256 -> Z_of_byte (byte_of_Z z) = z.
Proof.
  intros Hz. unfold Z_of_byte, byte_of_Z.
  rewrite Z.mod_small by lia.
  destruct (Byte.of_N (Z.to_N z)) as [b|] eqn:Hb; simpl.
  - apply Byte.to_of_N in Hb. lia.
  - apply Byte.of_N_None_iff in Hb. lia.
Qed.

Lemma length_le_bytes (w : nat) (v : Z) : length (le_bytes w v) = w.
Proof. revert v. induction w as [|w IH]; intros v; simpl; [reflexivity | by rewrite IH]. Qed.

Lemma le_value_le_bytes (w : nat) (v : Z) :
  0 <= v < 2 ^ (8 * Z.of_nat w) -> le_value (le_bytes w v) = v.
Proof.
  revert v. induction w as [|w IH]; intros v Hv.
  - simpl in *. lia.
  - cbn [le_bytes le_value].
    assert (Hpow : 2 ^ (8 * Z.of_nat (S w)) = 256 * 2 ^ (8 * Z.of_nat w)).
    { replace (8 * Z.of_nat (S w)) with (8 + 8 * Z.of_nat w) by lia.
      rewrite Z.pow_add_r by lia. reflexivity. }
    rewrite Hpow in Hv.
    rewrite Z_of_byte_of_Z by (apply Z.mod_pos_bound; lia).
    rewrite IH.
    + pose proof (Z.div_mod v 256). lia.
    + split; [apply Z.div_pos; lia | apply Z.div_lt_upper_bound; lia].
Qed.

Lemma length_item_bytes (p : platform) (v : Z) :
  length (item_bytes p v) = itemsize p.
Proof.
  unfold item_bytes. destruct (order p); rewrite ?length_reverse; apply length_le_bytes.
Qed.

Lemma item_value_item_bytes (p : platform) (v : Z) :
  0 <= v < item_max p -> item_value p (item_bytes p v) = v.
Proof.
  intros Hv. unfold item_value, item_bytes.
  destruct (order p); rewrite ?reverse_involutive; by apply le_value_le_bytes.
Qed.

Lemma itemsize_pos (p : platform) : (0 < itemsize p)%nat.
Proof. unfold itemsize. destruct (long p); lia. Qed.

Lemma chunks_concat (w n : nat) (items : list (list byte)) :
  (0 < w)%nat -> (length items <= n)%nat ->
  Forall (fun it => length it = w) items ->
  chunks n w (concat items) = items.
Proof.
  intros Hw. revert n. induction items as [|it items IH]; intros n Hn Hall.
  - destruct n; reflexivity.
  - destruct n as [|n]; [simpl in Hn; lia|].
    apply Forall_cons in Hall as [Hit Hall].
    cbn [concat chunks].
    destruct (it ++ concat items) as [|b bs] eqn:Heq.
    + apply app_eq_nil in Heq as [-> _]. simpl in Hit. lia.
    + rewrite <- Heq.
      rewrite take_app_length' by done. rewrite drop_app_length' by done.
      rewrite IH; [done | simpl in Hn; lia | done].
Qed.

Lemma length_tobytes (p : platform) (a : list Z) :
  length (tobytes p a) = (itemsize p * length a)%nat.
Proof.
  unfold tobytes. induction a as [|x a IH]; simpl; [lia|].
  rewrite length_app, length_item_bytes, IH. lia.
Qed.

Lemma frombytes_tobytes (p : platform) (a : list Z) :
  Forall (fun x => 0 <= x < item_max p) a ->
  frombytes p (tobytes p a) = Ok a.
Proof.
  intros Ha. unfold frombytes.
  rewrite length_tobytes.
  pose proof (itemsize_pos p) as Hw.
  replace ((itemsize p * length a) mod itemsize p)%nat with 0%nat
    by (symmetry; rewrite Nat.mul_comm; apply Nat.Div0.mod_mul).
  simpl. f_equal. unfold tobytes.
  rewrite chunks_concat.
  - rewrite map_map. rewrite <- (map_id a) at 2.
    apply map_ext_Forall. eapply Forall_impl; [exact Ha|].
    intros x Hx. by apply item_value_item_bytes.
  - done.
  - rewrite length_map. nia.
  - apply Forall_forall. intros it Hit. apply list_elem_of_In, in_map_iff in Hit as (x & <- & _).
    apply length_item_bytes.
Qed.

Lemma array_L_Ok (p : platform) (l : list Z) :
  Forall (fun x => 0 <= x < item_max p) l -> array_L p l = Ok l.
Proof.
  induction 1 as [|x l Hx _ IH]; simpl; [reflexivity|].
  destruct (0 <=? x) eqn:H0; [|lia]. destruct (x <? item_max p) eqn:H1; [|lia].
  simpl. rewrite IH. reflexivity.
Qed.

Lemma array_L_Raise (p : platform) (l : list Z) :
  ¬ Forall (fun x => 0 <= x < item_max p) l -> array_L p l = Raise OverflowError.
Proof.
  induction l as [|x l IH]; intros Hn.
  - destruct Hn. constructor.
  - simpl. destruct (0 <=? x) eqn:H0; [|reflexivity].
    destruct (x <? item_max p) eqn:H1; [|reflexivity]. simpl.
    rewrite IH; [reflexivity|]. intros Hall. apply Hn. constructor; [lia | done].
Qed.

(** ** The variable-byte codec *)

Section Codec.
Import VBEPostings.

Lemma vb_encode_loop_small (number : Z) (bytes : list Z) :
  number < 128 -> vb_encode_loop number bytes = number mod 128 :: bytes.
Proof.
  intros Hn. simp vb_encode_loop. destruct (Z_lt_dec number 128); [reflexivity | lia].
Qed.

Lemma vb_encode_loop_big (number : Z) (bytes : list Z) :
  128 <= number ->
  vb_encode_loop number bytes = vb_encode_loop (number / 128) (number mod 128 :: bytes).
Proof.
  intros Hn. rewrite vb_encode_loop_equation_1.
  destruct (Z_lt_dec number 128); [lia | reflexivity].
Qed.

Lemma vb_encode_loop_app (number : Z) (bytes : list Z) :
  vb_encode_loop number bytes = vb_encode_loop number [] ++ bytes.
Proof.
  destruct (Z_lt_dec number 128) as [Hs|Hb].
  { rewrite !vb_encode_loop_small by done. reflexivity. }
  assert (H0 : 0 <= number) by lia. clear Hb.
  revert bytes. pattern number. apply Z_lt_induction; [|exact H0].
  clear number H0. intros n IH bytes.
  destruct (Z_lt_dec n 128) as [Hs|Hb].
  - rewrite !vb_encode_loop_small by done. reflexivity.
  - rewrite !(vb_encode_loop_big n) by lia.
    assert (Hq : 0 <= n / 128 < n).
    { split; [apply Z.div_pos; lia | apply Z.div_lt; lia]. }
    rewrite (IH _ Hq (n mod 128 :: bytes)), (IH _ Hq [n mod 128]).
    rewrite <- app_assoc. reflexivity.
Qed.

Lemma digits_big (number : Z) :
  128 <= number ->
  vb_encode_loop number [] = vb_encode_loop (number / 128) [] ++ [number mod 128].
Proof.
  intros Hn. rewrite vb_encode_loop_big by done. apply vb_encode_loop_app.
Qed.

Lemma add_last_snoc (bytes : list Z) (b : Z) :
  add_last (bytes ++ [b]) = bytes ++ [b + 128].
Proof.
  induction bytes as [|x bytes IH]; [reflexivity|].
  cbn [app add_last]. rewrite IH.
  destruct (bytes ++ [b]) eqn:E; [by destruct bytes | reflexivity].
Qed.

Lemma vb_encode_number_small (number : Z) :
  number < 128 -> vb_encode_number number = [number mod 128 + 128].
Proof. intros Hn. unfold vb_encode_number. by rewrite vb_encode_loop_small. Qed.

Lemma vb_encode_number_big (number : Z) :
  128 <= number ->
  vb_encode_number number = vb_encode_loop (number / 128) [] ++ [number mod 128 + 128].
Proof.
  intros Hn. unfold vb_encode_number. rewrite digits_big by done. apply add_last_snoc.
Qed.

(** Every digit but the marked one is below 128. *)
(** Induction on the digits of a natural number, most significant first. *)
Lemma digits_ind (P : Z -> list Z -> Prop) :
  (forall n, 0 <= n < 128 -> P n [n]) ->
  (forall n, 128 <= n ->
     P (n / 128) (vb_encode_loop (n / 128) []) ->
     P n (vb_encode_loop (n / 128) [] ++ [n mod 128])) ->
  forall n, 0 <= n -> P n (vb_encode_loop n []).
Proof.
  intros Hsmall Hbig n Hn. pattern n. apply Zlt_0_ind; [|exact Hn].
  clear n Hn. intros n IH Hn.
  destruct (Z_lt_dec n 128) as [Hs|Hb].
  - rewrite vb_encode_loop_small, Z.mod_small by lia. apply Hsmall. lia.
  - rewrite digits_big by lia. apply Hbig; [lia|].
    apply IH. split; [apply Z.div_pos | apply Z.div_lt]; lia.
Qed.

Lemma digits_range (number : Z) :
  0 <= number -> Forall (fun d => 0 <= d < 128) (vb_encode_loop number []).
Proof.
  revert number. apply (digits_ind (fun _ ds => Forall (fun d => 0 <= d < 128) ds)).
  - intros n Hn. repeat constructor; lia.
  - intros n Hn IH. apply Forall_app. split; [exact IH|].
    repeat constructor; apply Z.mod_pos_bound; lia.
Qed.

Lemma vb_encode_number_range (number : Z) :
  0 <= number -> Forall (fun d => 0 <= d < 256) (vb_encode_number number).
Proof.
  intros Hn. destruct (Z_lt_dec number 128) as [Hs|Hb].
  - rewrite vb_encode_number_small by done.
    pose proof (Z.mod_pos_bound number 128). repeat constructor; lia.
  - rewrite vb_encode_number_big by lia. apply Forall_app. split.
    + eapply Forall_impl; [apply digits_range; apply Z.div_pos; lia|].
      simpl. intros; lia.
    + pose proof (Z.mod_pos_bound number 128). repeat constructor; lia.
Qed.

Lemma horner_snoc (W h d : Z) (ds : list Z) :
  horner W h (ds ++ [d]) = W * horner W h ds + d.
Proof. unfold horner. by rewrite fold_left_app. Qed.

Lemma horner_digits (number : Z) :
  0 <= number -> horner 128 0 (vb_encode_loop number []) = number.
Proof.
  revert number. apply (digits_ind (fun n ds => horner 128 0 ds = n)).
  - intros n Hn. unfold horner. simpl. lia.
  - intros n Hn IH. rewrite horner_snoc, IH.
    pose proof (Z.div_mod n 128). lia.
Qed.

(** A wider base can only enlarge the value read. *)
Lemma horner_digits_wide (W number : Z) :
  128 <= W -> 0 <= number ->
  number <= horner W 0 (vb_encode_loop number []).
Proof.
  intros HW. revert number. apply (digits_ind (fun n ds => n <= horner W 0 ds)).
  - intros n Hn. unfold horner. simpl. lia.
  - intros n Hn IH. rewrite horner_snoc.
    pose proof (Z.div_mod n 128). pose proof (Z.mod_pos_bound n 128).
    assert (0 <= n / 128) by (apply Z.div_pos; lia). nia.
Qed.

Lemma vb_decode_from_digits (ds rest : list Z) (n : Z) :
  Forall (fun d => 0 <= d < 128) ds ->
  vb_decode_from n (ds ++ rest) = vb_decode_from (horner 128 n ds) rest.
Proof.
  intros Hds. revert n. induction Hds as [|d ds Hd _ IH]; intros n; [reflexivity|].
  cbn [app vb_decode_from]. destruct (d <? 128) eqn:E; [|lia]. apply IH.
Qed.

Lemma vb_decode_from_number (number : Z) (rest : list Z) :
  0 <= number ->
  vb_decode_from 0 (vb_encode_number number ++ rest) = number :: vb_decode_from 0 rest.
Proof.
  intros Hn. destruct (Z_lt_dec number 128) as [Hs|Hb].
  - rewrite vb_encode_number_small, Z.mod_small by lia. cbn [app vb_decode_from].
    destruct (number + 128 <? 128) eqn:E; [lia|]. f_equal. lia.
  - rewrite vb_encode_number_big by lia. rewrite <- app_assoc.
    rewrite vb_decode_from_digits by (apply digits_range, Z.div_pos; lia).
    rewrite horner_digits by (apply Z.div_pos; lia).
    pose proof (Z.mod_pos_bound number 128).
    cbn [app vb_decode_from]. destruct (number mod 128 + 128 <? 128) eqn:E; [lia|].
    f_equal. pose proof (Z.div_mod number 128). lia.
Qed.

Lemma vb_decode_encode_numbers (l : list Z) :
  Forall (fun x => 0 <= x) l ->
  vb_decode (concat (map vb_encode_number l)) = l.
Proof.
  unfold vb_decode. induction 1 as [|x l Hx _ IH]; [reflexivity|].
  cbn [map concat]. rewrite vb_decode_from_number by done. by rewrite IH.
Qed.

Lemma bytestream_range (l : list Z) :
  Forall (fun x => 0 <= x) l ->
  Forall (fun d => 0 <= d < 256) (concat (map vb_encode_number l)).
Proof.
  induction 1 as [|x l Hx _ IH]; [constructor|].
  cbn [map concat]. apply Forall_app. split; [by apply vb_encode_number_range | done].
Qed.

Lemma byte_lt_item_max (p : platform) (d : Z) : d < 256 -> d < item_max p.
Proof.
  intros Hd. unfold item_max, itemsize. destruct (long p); simpl; lia.
Qed.

Lemma wrap64_small (z : Z) : - 2 ^ 63 <= z < 2 ^ 63 -> wrap64 z = z.
Proof. intros Hz. unfold wrap64. rewrite Z.mod_small; lia. Qed.

(** Gaps of an ascending list and their running sums. *)
Lemma np_cumsum_diff (a : Z) (l : list Z) :
  Sorted Z.le (a :: l) -> 0 <= a < 2 ^ 63 -> Forall (fun x => x < 2 ^ 63) l ->
  np_cumsum_from Int64 a (np_diff_as Int64 (a :: l)) = l
  /\ Forall (fun x => 0 <= x < 2 ^ 63) (np_diff_as Int64 (a :: l)).
Proof.
  revert a. induction l as [|b l IH]; intros a Hs Ha Hl.
  - split; [reflexivity | constructor].
  - apply Sorted_inv in Hs as [Hs Hhd]. apply HdRel_inv in Hhd.
    apply Forall_cons in Hl as [Hb Hl].
    destruct (IH b Hs ltac:(lia) Hl) as [IH1 IH2].
    change (np_diff_as Int64 (a :: b :: l))
      with (wrap64 (wrap64 b - wrap64 a) :: np_diff_as Int64 (b :: l)).
    rewrite (wrap64_small a), (wrap64_small b), (wrap64_small (b - a)) by lia.
    cbn [np_cumsum_from np_store]. rewrite (wrap64_small (b - a)) by lia.
    replace (a + (b - a)) with b by lia. rewrite wrap64_small by lia.
    rewrite IH1. split; [reflexivity|]. constructor; [lia | done].
Qed.

Lemma np_dtype_int64 (x : Z) (l : list Z) :
  Forall (fun x => - 2 ^ 63 <= x < 2 ^ 63) (x :: l) -> np_dtype (x :: l) = Int64.
Proof.
  intros Hl. unfold np_dtype.
  assert (Hall : forallb fits_int64 (x :: l) = true).
  { induction Hl as [|y l' Hy _ IH]; [reflexivity|].
    cbn [forallb]. rewrite IH. unfold fits_int64. lia. }
  by rewrite Hall.
Qed.

Lemma bind_Ok {A B : Type} (a : A) (f : A -> result B) : Ok a ≫= f = f a.
Proof. reflexivity. Qed.

Lemma standard_roundtrip (p : platform) (L : list Z) :
  Forall (fun x => 0 <= x < item_max p) L ->
  StandardPostings.encode p L ≫= StandardPostings.decode p = Ok L.
Proof.
  intros HL. unfold StandardPostings.encode, StandardPostings.decode.
  rewrite array_L_Ok by done. simpl. by apply frombytes_tobytes.
Qed.

Lemma vb_encode_Ok (p : platform) (l : list Z) :
  Forall (fun x => 0 <= x) l ->
  vb_encode p l = Ok (tobytes p (concat (map vb_encode_number l))).
Proof.
  intros Hl. unfold vb_encode.
  rewrite array_L_Ok; [reflexivity|].
  eapply Forall_impl; [by apply bytestream_range|].
  simpl. intros d Hd. split; [lia | apply byte_lt_item_max; lia].
Qed.

Lemma vbe_roundtrip (p : platform) (L : list Z) :
  Sorted Z.le L -> Forall (fun x => 0 <= x < 2 ^ 63) L ->
  VBEPostings.encode p L ≫= VBEPostings.decode p = Ok L.
Proof.
  intros Hs HL. unfold encode, decode.
  assert (H0 : Sorted Z.le (0 :: L)).
  { constructor; [done|]. destruct HL; constructor; lia. }
  destruct (np_cumsum_diff 0 L H0 ltac:(lia)) as [Hsum Hgaps].
  { eapply Forall_impl; [exact HL|]. simpl. intros; lia. }
  rewrite np_dtype_int64.
  2:{ constructor; [lia|]. eapply Forall_impl; [exact HL|]. simpl. intros; lia. }
  unfold np_diff. rewrite np_dtype_int64.
  2:{ constructor; [lia|]. eapply Forall_impl; [exact HL|]. simpl. intros; lia. }
  assert (Hnn : Forall (fun x => 0 <= x) (np_diff_as Int64 (0 :: L))).
  { eapply Forall_impl; [exact Hgaps|]. simpl. intros; lia. }
  rewrite vb_encode_Ok, bind_Ok by done.
  rewrite frombytes_tobytes.
  - rewrite bind_Ok, vb_decode_encode_numbers by done. unfold np_cumsum.
    destruct (np_diff_as Int64 (0 :: L)) as [|g gaps] eqn:Eg.
    + destruct L as [|x L]; [reflexivity | discriminate].
    + rewrite np_dtype_int64; [by rewrite Hsum|].
      eapply Forall_impl; [exact Hgaps|]. simpl. intros; lia.
  - eapply Forall_impl; [by apply bytestream_range|].
    simpl. intros d Hd. split; [lia | apply byte_lt_item_max; lia].
Qed.

Lemma le_bytes_zero (w : nat) : Z_of_byte <$> le_bytes w 0 = replicate w 0.
Proof. induction w as [|w IH]; [reflexivity|]. cbn [le_bytes]. rewrite Z.div_0_l by lia.
  rewrite fmap_cons, IH. reflexivity. Qed.

Lemma le_bytes_byte (w : nat) (d : Z) :
  0 <= d < 256 -> Z_of_byte <$> le_bytes (S w) d = d :: replicate w 0.
Proof.
  intros Hd. cbn [le_bytes]. rewrite fmap_cons.
  rewrite Z.mod_small, Z_of_byte_of_Z, Z.div_small, le_bytes_zero by lia. reflexivity.
Qed.

Lemma word_eq (p : platform) (d : Z) :
  0 <= d < 256 ->
  word p d = match order p with
             | LittleEndian => d :: replicate (itemsize p - 1) 0
             | BigEndian => replicate (itemsize p - 1) 0 ++ [d]
             end.
Proof.
  intros Hd. unfold word, item_bytes.
  pose proof (itemsize_pos p) as Hw.
  destruct (itemsize p) as [|w]; [lia|].
  replace (S w - 1)%nat with w by lia.
  destruct (order p).
  - by apply le_bytes_byte.
  - rewrite fmap_reverse, le_bytes_byte by done.
    rewrite reverse_cons, reverse_replicate. reflexivity.
Qed.

Lemma vb_decode_from_zeros (j : nat) (n : Z) (rest : list Z) :
  vb_decode_from n (replicate j 0 ++ rest) = vb_decode_from (128 ^ Z.of_nat j * n) rest.
Proof.
  revert n. induction j as [|j IH]; intros n.
  - simpl. f_equal. lia.
  - cbn [replicate app vb_decode_from]. simpl (0 <? 128). cbv iota.
    rewrite IH. f_equal. rewrite Nat2Z.inj_succ, Z.pow_succ_r by lia. lia.
Qed.

Lemma word_base_eq (p : platform) :
  word_base p = 128 * 128 ^ Z.of_nat (itemsize p - 1).
Proof.
  unfold word_base. pose proof (itemsize_pos p).
  rewrite <- Z.pow_succ_r by lia. f_equal. lia.
Qed.

Lemma carry_0 (p : platform) : carry p 0 = 0.
Proof. unfold carry. destruct (order p); lia. Qed.

Lemma decode_word_digit (p : platform) (h d : Z) (rest : list Z) :
  0 <= d < 128 ->
  vb_decode_from (carry p h) (word p d ++ rest)
  = vb_decode_from (carry p (word_base p * h + d)) rest.
Proof.
  intros Hd. rewrite word_eq by lia. rewrite word_base_eq. unfold carry.
  destruct (order p).
  - cbn [app vb_decode_from]. destruct (d <? 128) eqn:E; [|lia].
    rewrite vb_decode_from_zeros. f_equal. ring.
  - rewrite <- app_assoc, vb_decode_from_zeros. cbn [app vb_decode_from].
    destruct (d <? 128) eqn:E; [|lia]. f_equal. ring.
Qed.

Lemma decode_word_last (p : platform) (h d : Z) (rest : list Z) :
  0 <= d < 128 ->
  vb_decode_from (carry p h) (word p (d + 128) ++ rest)
  = (word_base p * h + d) :: vb_decode_from 0 rest.
Proof.
  intros Hd. rewrite word_eq by lia. rewrite word_base_eq. unfold carry.
  destruct (order p).
  - cbn [app vb_decode_from]. destruct (d + 128 <? 128) eqn:E; [lia|].
    rewrite vb_decode_from_zeros, Z.mul_0_r. f_equal. ring.
  - rewrite <- app_assoc, vb_decode_from_zeros. cbn [app vb_decode_from].
    destruct (d + 128 <? 128) eqn:E; [lia|]. f_equal. ring.
Qed.

Lemma decode_word_digits (p : platform) (ds rest : list Z) (h : Z) :
  Forall (fun d => 0 <= d < 128) ds ->
  vb_decode_from (carry p h) (concat (word p <$> ds) ++ rest)
  = vb_decode_from (carry p (horner (word_base p) h ds)) rest.
Proof.
  intros Hds. revert h. induction Hds as [|d ds Hd _ IH]; intros h; [reflexivity|].
  rewrite fmap_cons. cbn [concat]. rewrite <- app_assoc.
  rewrite decode_word_digit by done. apply IH.
Qed.

Lemma decode_word_number (p : platform) (number : Z) (rest : list Z) :
  0 <= number ->
  vb_decode_from 0 (concat (word p <$> vb_encode_number number) ++ rest)
  = stretch p number :: vb_decode_from 0 rest.
Proof.
  intros Hn. unfold stretch.
  destruct (Z_lt_dec number 128) as [Hs|Hb].
  - rewrite vb_encode_number_small, vb_encode_loop_small, Z.mod_small by lia.
    cbn [fmap list_fmap concat]. rewrite app_nil_r.
    pose proof (decode_word_last p 0 number rest ltac:(lia)) as Hlast.
    rewrite carry_0 in Hlast. rewrite Hlast. reflexivity.
  - rewrite vb_encode_number_big, (digits_big number) by lia.
    rewrite fmap_app, concat_app, <- app_assoc.
    pose proof (decode_word_digits p (vb_encode_loop (number / 128) [])
                  (concat (word p <$> [number mod 128 + 128]) ++ rest) 0) as Hds.
    rewrite carry_0 in Hds. rewrite Hds by (apply digits_range, Z.div_pos; lia).
    cbn [fmap list_fmap concat]. rewrite app_nil_r.
    rewrite decode_word_last by (apply Z.mod_pos_bound; lia).
    by rewrite horner_snoc.
Qed.

Lemma fmap_tobytes (p : platform) (a : list Z) :
  Z_of_byte <$> tobytes p a = concat (word p <$> a).
Proof.
  unfold tobytes. induction a as [|x a IH]; [reflexivity|].
  cbn [map concat]. rewrite fmap_app, IH. reflexivity.
Qed.

Lemma decode_words (p : platform) (l : list Z) :
  Forall (fun x => 0 <= x) l ->
  vb_decode (Z_of_byte <$> tobytes p (concat (map vb_encode_number l)))
  = stretch p <$> l.
Proof.
  intros Hl. rewrite fmap_tobytes. unfold vb_decode.
  induction Hl as [|x l Hx _ IH]; [reflexivity|].
  cbn [map concat]. rewrite fmap_app, concat_app.
  rewrite decode_word_number by done. rewrite IH. reflexivity.
Qed.

Lemma word_base_gt (p : platform) : 128 < word_base p.
Proof. unfold word_base, itemsize. destruct (long p); simpl; lia. Qed.

Lemma stretch_fixed (p : platform) (number : Z) :
  0 <= number -> (stretch p number = number <-> number < 128).
Proof.
  intros Hn. unfold stretch. pose proof (word_base_gt p) as HW. split.
  - intros Heq. destruct (Z_lt_dec number 128) as [Hs|Hb]; [done|exfalso].
    rewrite digits_big, horner_snoc in Heq by lia.
    assert (Hq : 1 <= number / 128) by (apply Z.div_le_lower_bound; lia).
    pose proof (horner_digits_wide (word_base p) (number / 128) ltac:(lia) ltac:(lia)).
    pose proof (Z.div_mod number 128). pose proof (Z.mod_pos_bound number 128). nia.
  - intros Hs. rewrite vb_encode_loop_small, Z.mod_small by lia. unfold horner. simpl. lia.
Qed.

(** C10.  For every list [L] of non-negative term frequencies, on every
    platform, [decode_tf (encode_tf L)] gives [L] back exactly when every
    element is below 128: [encode_tf] writes each base-128 digit on a whole
    array item and [decode_tf] reads the stream byte by byte, so a number
    of two digits or more comes back stretched. *)
Theorem tf_roundtrip_iff (p : platform) (L : list Z) :
  Forall (fun x => 0 <= x) L ->
  (VBEPostings.encode_tf p L ≫= VBEPostings.decode_tf = Ok L
   <-> Forall (fun x => x < 128) L).
Proof.
  intros HL. unfold encode_tf, decode_tf.
  rewrite vb_encode_Ok, bind_Ok by done.
  change (map Z_of_byte) with (fmap (M:=list) Z_of_byte).
  rewrite decode_words by done.
  induction HL as [|x L Hx HL IH].
  - split; [constructor | reflexivity].
  - rewrite fmap_cons. split.
    + intros [= H1 H2]. constructor; [by apply (stretch_fixed p) | apply IH; by f_equal].
    + intros [H1 H2]%Forall_cons. apply (stretch_fixed p) in H1; [|done].
      apply IH in H2. injection H2 as H2. by rewrite H1, H2.
Qed.

Lemma length_vb_encode_number (number : Z) :
  0 <= number -> length (vb_encode_number number) = base128_digits number.
Proof.
  intros Hn. unfold vb_encode_number.
  assert (Hlen : forall l, length (add_last l) = length l).
  { induction l as [|x [|y l] IH]; try reflexivity. cbn [add_last length] in *. by rewrite IH. }
  rewrite Hlen. revert number Hn.
  apply (digits_ind (fun n ds => length ds = base128_digits n)).
  - intros n Hn. unfold base128_digits.
    destruct (Z.eq_dec n 0) as [->|Hne]; [reflexivity|].
    assert (Z.log2 n < 7) by (apply Z.log2_lt_pow2; lia).
    pose proof (Z.log2_nonneg n). rewrite Z.div_small by lia. reflexivity.
  - intros n Hn IH. rewrite length_app, IH. unfold base128_digits.
    change 128 with (2 ^ 7). rewrite <- Z.shiftr_div_pow2, Z.log2_shiftr by lia.
    assert (7 <= Z.log2 n) by (apply (Z.log2_le_pow2 n 7); lia).
    rewrite Z.max_r by lia.
    replace (Z.log2 n) with ((Z.log2 n - 7) + 1 * 7) at 2 by lia.
    rewrite Z.div_add by lia.
    assert (0 <= (Z.log2 n - 7) / 7) by (apply Z.div_pos; lia).
    simpl. lia.
Qed.

(** The encoder spends a whole array item on every digit. *)
Lemma vb_encode_length (p : platform) (l : list Z) :
  Forall (fun x => 0 <= x) l ->
  exists bs, vb_encode p l = Ok bs /\ length bs = (itemsize p * total_digits l)%nat.
Proof.
  intros Hl. eexists. split; [by apply vb_encode_Ok|].
  rewrite length_tobytes. f_equal. unfold total_digits.
  induction Hl as [|x l Hx _ IH]; [reflexivity|].
  cbn [map concat]. rewrite length_app, length_vb_encode_number, IH by done. reflexivity.
Qed.

(** C2.  The stream is not one byte per base-128 digit: on 64-bit Linux
    the single digit of 5 is written on the 8 bytes of an array item. *)
Theorem vb_encode_spends_a_word_per_digit :
  VBEPostings.vb_encode linux64 [5] = Ok [x85; x00; x00; x00; x00; x00; x00; x00]
  /\ total_digits [5] = 1%nat.
Proof. split; vm_compute; reflexivity. Qed.

(** C1.  For every list [L] of non-negative integers and every platform:
    the fixed-width codec gives [L] back when every element fits an array
    item, and the variable-byte gap codec gives [L] back when [L] is
    ascending and every element is below [2 ^ 63]. *)
Theorem codec_roundtrip (p : platform) (L : list Z) :
  Forall (fun x => 0 <= x) L ->
  (Forall (fun x => x < item_max p) L ->
   StandardPostings.encode p L ≫= StandardPostings.decode p = Ok L)
  /\ (Sorted Z.le L -> Forall (fun x => x < 2 ^ 63) L ->
      VBEPostings.encode p L ≫= VBEPostings.decode p = Ok L).
Proof.
  intros H0. split.
  - intros Hmax. apply standard_roundtrip.
    apply Forall_forall. intros x Hx. rewrite Forall_forall in H0, Hmax. split; auto.
  - intros Hs Hmax. apply vbe_roundtrip; [done|].
    apply Forall_forall. intros x Hx. rewrite Forall_forall in H0, Hmax. split; auto.
Qed.

Lemma codec_roundtrip_witness :
  StandardPostings.encode linux64 [34; 67; 89; 454; 2345738]
    ≫= StandardPostings.decode linux64 = Ok [34; 67; 89; 454; 2345738]
  /\ VBEPostings.encode linux64 [34; 67; 89; 454; 2345738]
       ≫= VBEPostings.decode linux64 = Ok [34; 67; 89; 454; 2345738].
Proof.
  assert (H0 : Forall (fun x => 0 <= x) [34; 67; 89; 454; 2345738])
    by (repeat constructor; lia).
  destruct (codec_roundtrip linux64 [34; 67; 89; 454; 2345738] H0) as [Hstd Hvbe].
  split.
  - apply Hstd. repeat constructor; vm_compute; reflexivity.
  - apply Hvbe; repeat constructor; lia.
Defined.

(** A list that is not ascending, and a value too large for an array item. *)
Lemma codec_roundtrip_fails :
  VBEPostings.encode linux64 [5; 3] ≫= VBEPostings.decode linux64 <> Ok [5; 3]
  /\ StandardPostings.encode linux64 [2 ^ 64] ≫= StandardPostings.decode linux64
     <> Ok [2 ^ 64].
Proof. split; vm_compute; discriminate. Qed.

Example vbe_roundtrip_descending :
  VBEPostings.encode linux64 [5; 3] ≫= VBEPostings.decode linux64 = Ok [5; 131].
Proof. vm_compute. reflexivity. Qed.

(** Ids from [2 ^ 63] on: next to the leading 0 an id below [2 ^ 64]
    makes a [float64] array of gaps, which cannot be encoded; an id from
    [2 ^ 64] on makes an array of Python integers, without wrap-around; and
    a single decoded number from [2 ^ 63] on is summed as [uint64]. *)
Example vbe_encode_float_gaps :
  VBEPostings.encode linux64 [2 ^ 63] = Raise TypeError.
Proof. vm_compute. reflexivity. Qed.

Example vbe_roundtrip_object :
  VBEPostings.encode linux64 [2 ^ 64] ≫= VBEPostings.decode linux64 = Ok [2 ^ 64].
Proof. vm_compute. reflexivity. Qed.

Example vbe_decode_uint64 :
  VBEPostings.vb_encode linux64 [2 ^ 64 - 129] ≫= VBEPostings.decode linux64
  = Ok [2 ^ 64 - 129].
Proof. vm_compute. reflexivity. Qed.

Example standard_encode_overflow :
  StandardPostings.encode linux64 [2 ^ 64] = Raise OverflowError.
Proof. vm_compute. reflexivity. Qed.

(** The assertions at the end of compression.py, on its term frequencies. *)
Example main_tf_list :
  StandardPostings.encode_tf linux64 [12; 10; 3; 4; 1]
    ≫= StandardPostings.decode_tf linux64 = Ok [12; 10; 3; 4; 1]
  /\ VBEPostings.encode_tf linux64 [12; 10; 3; 4; 1] ≫= VBEPostings.decode_tf
     = Ok [12; 10; 3; 4; 1].
Proof. split; vm_compute; reflexivity. Qed.

(** A term frequency of two digits does not survive. *)
Example tf_roundtrip_128 :
  VBEPostings.encode_tf linux64 [128] ≫= VBEPostings.decode_tf = Ok [128 ^ 8].
Proof. vm_compute. reflexivity. Qed.

Lemma tf_roundtrip_iff_witness :
  VBEPostings.encode_tf linux64 [12; 10; 3; 4; 1] ≫= VBEPostings.decode_tf
  = Ok [12; 10; 3; 4; 1].
Proof.
  apply (tf_roundtrip_iff linux64 [12; 10; 3; 4; 1]); repeat constructor; lia.
Defined.

End Codec.

(** ** Block inversion *)

Lemma StronglySorted_le_lt (l : list Z) :
  StronglySorted Z.le l -> NoDup l -> StronglySorted Z.lt l.
Proof.
  induction 1 as [|x l Hs IH Hall]; intros Hnd; [constructor|].
  apply NoDup_cons in Hnd as [Hx Hnd]. constructor; [by apply IH|].
  rewrite Forall_forall in Hall |- *. intros y Hy.
  specialize (Hall y Hy). assert (x <> y) by (intros ->; done). lia.
Qed.

Lemma sorted_keys_elem_of {V : Type} (d : gmap Z V) (x : Z) :
  x ∈ sorted_keys d <-> is_Some (d !! x).
Proof.
  unfold sorted_keys. rewrite merge_sort_Permutation.
  rewrite list_elem_of_fmap. split.
  - intros [[k v] [-> Hkv]]. apply elem_of_map_to_list in Hkv. by exists v.
  - intros [v Hv]. exists (x, v). split; [done|]. by apply elem_of_map_to_list.
Qed.

Lemma sorted_keys_sorted {V : Type} (d : gmap Z V) :
  StronglySorted Z.lt (sorted_keys d).
Proof.
  apply StronglySorted_le_lt.
  - apply StronglySorted_merge_sort; apply _.
  - unfold sorted_keys. rewrite merge_sort_Permutation. apply NoDup_fst_map_to_list.
Qed.

Lemma occurrences_nil (t d : Z) : occurrences t d [] = 0.
Proof. reflexivity. Qed.

Lemma occurrences_snoc (t d : Z) (l : list (Z * Z)) (x : Z * Z) :
  occurrences t d (l ++ [x])
  = occurrences t d l + (if decide (x = (t, d)) then 1 else 0).
Proof.
  unfold occurrences. rewrite filter_app, length_app, filter_cons, filter_nil.
  destruct (decide (x = (t, d))); simpl; lia.
Qed.

Lemma occurrences_nonneg (t d : Z) (l : list (Z * Z)) : 0 <= occurrences t d l.
Proof. unfold occurrences. lia. Qed.

Lemma occurrences_pos (t d : Z) (l : list (Z * Z)) :
  (t, d) ∈ l <-> 1 <= occurrences t d l.
Proof.
  unfold occurrences. split.
  - intros Hin. assert (Hf : (t, d) ∈ filter (fun x => x = (t, d)) l)
      by (apply list_elem_of_filter; done).
    destruct (filter _ l); [by apply elem_of_nil in Hf | simpl; lia].
  - intros Hlen. destruct (filter (fun x => x = (t, d)) l) as [|y f] eqn:E; [simpl in Hlen; lia|].
    assert (Hy : y ∈ filter (fun x => x = (t, d)) l) by (rewrite E; left).
    apply list_elem_of_filter in Hy as [-> Hy]. done.
Qed.

Lemma count_pair_lookup (m : gmap Z (gmap Z Z)) (t0 d0 t d : Z) :
  term_dict_lookup (count_pair m (t0, d0)) t d
  = if decide ((t0, d0) = (t, d))
    then Some (default 0 (term_dict_lookup m t d) + 1)
    else term_dict_lookup m t d.
Proof.
  unfold term_dict_lookup, count_pair.
  destruct (decide (t0 = t)) as [->|Ht].
  - rewrite lookup_insert_eq. simpl.
    destruct (decide (d0 = d)) as [->|Hd].
    + rewrite lookup_insert_eq. by rewrite decide_True.
    + rewrite lookup_insert_ne by done. rewrite decide_False by congruence. done.
  - rewrite lookup_insert_ne by done. rewrite decide_False by congruence. done.
Qed.

Lemma count_pair_is_Some (m : gmap Z (gmap Z Z)) (t0 d0 t : Z) :
  is_Some (count_pair m (t0, d0) !! t) <-> t = t0 \/ is_Some (m !! t).
Proof.
  unfold count_pair. destruct (decide (t0 = t)) as [->|Ht].
  - rewrite lookup_insert_eq. split; [by left | eauto].
  - rewrite lookup_insert_ne by done. split; [by right | intros [?|?]; [congruence | done]].
Qed.

Lemma term_dict_spec (l : list (Z * Z)) :
  let term_dict := fold_left count_pair l ∅ in
  (forall t d, term_dict_lookup term_dict t d
               = if decide (occurrences t d l = 0) then None
                 else Some (occurrences t d l))
  /\ (forall t, is_Some (term_dict !! t) <-> exists d, (t, d) ∈ l).
Proof.
  induction l as [|[t0 d0] l IH] using rev_ind.
  - simpl. split.
    + intros t d. unfold term_dict_lookup. rewrite lookup_empty. simpl.
      by rewrite lookup_empty.
    + intros t. rewrite lookup_empty. split; [by intros [? ?] | intros [d Hd]].
      by apply elem_of_nil in Hd.
  - rewrite fold_left_app. cbn [fold_left]. cbv zeta in IH |- *.
    destruct IH as [IH1 IH2]. split.
    + intros t d. rewrite count_pair_lookup, IH1, occurrences_snoc.
      pose proof (occurrences_nonneg t d l).
      destruct (decide ((t0, d0) = (t, d))).
      * destruct (decide (occurrences t d l = 0)) as [->|?]; simpl.
        -- reflexivity.
        -- rewrite decide_False by lia. reflexivity.
      * by rewrite Z.add_0_r.
    + intros t. rewrite count_pair_is_Some, IH2. split.
      * intros [->|[d Hd]]; [exists d0 | exists d]; apply elem_of_app;
          [right; apply list_elem_of_singleton; reflexivity | by left].
      * intros [d Hd]. apply elem_of_app in Hd as [Hd|Hd]; [right; eauto|].
        apply list_elem_of_singleton in Hd. injection Hd as -> ->. by left.
Qed.

Lemma appended_fold_append_term (term_dict : gmap Z (gmap Z Z)) (ks : list Z)
    (index : InvertedIndexWriter) :
  appended (fold_left (append_term term_dict) ks index)
  = appended index ++ (term_entry term_dict <$> ks).
Proof.
  revert index. induction ks as [|k ks IH]; intros index.
  - simpl. by rewrite app_nil_r.
  - cbn [fold_left]. rewrite IH. unfold append_term. cbn [append appended].
    rewrite fmap_cons, <- app_assoc. reflexivity.
Qed.

(** C6.  For every list of pairs, [write_to_index] appends one entry per
    distinct term id, in strictly ascending order of term id; the postings
    list of an entry is strictly ascending and holds exactly the documents
    paired with the term, and the co-indexed frequency of a document is the
    number of occurrences of the pair in the input, hence at least 1. *)
Theorem write_to_index_appends (td_pairs : list (Z * Z)) (index : InvertedIndexWriter) :
  exists out,
    appended (write_to_index td_pairs index) = appended index ++ out
    /\ StronglySorted Z.lt (termId <$> out)
    /\ (forall t, t ∈ termId <$> out <-> exists d, (t, d) ∈ td_pairs)
    /\ (forall t postings_list tf_list,
          (t, postings_list, tf_list) ∈ out ->
          StronglySorted Z.lt postings_list
          /\ (forall d, d ∈ postings_list <-> (t, d) ∈ td_pairs)
          /\ tf_list = (fun d => occurrences t d td_pairs) <$> postings_list
          /\ Forall (fun tf => 1 <= tf) tf_list).
Proof.
  unfold write_to_index.
  destruct (term_dict_spec td_pairs) as [Hlook Hdom].
  set (term_dict := fold_left count_pair td_pairs ∅) in *.
  exists (term_entry term_dict <$> sorted_keys term_dict).
  assert (Hids : termId <$> (term_entry term_dict <$> sorted_keys term_dict)
                 = sorted_keys term_dict).
  { rewrite <- list_fmap_compose. apply list_fmap_id. }
  split; [apply appended_fold_append_term|].
  rewrite Hids. split; [apply sorted_keys_sorted|]. split.
  - intros t. by rewrite sorted_keys_elem_of, Hdom.
  - intros t postings_list tf_list Hin.
    apply list_elem_of_fmap in Hin as (t' & Heq & _).
    unfold term_entry in Heq. injection Heq as <- -> ->.
    assert (Hdoc : forall d, d ∈ sorted_keys (default ∅ (term_dict !! t))
                             <-> (t, d) ∈ td_pairs).
    { intros d. rewrite sorted_keys_elem_of, occurrences_pos.
      fold (term_dict_lookup term_dict t d). rewrite Hlook.
      pose proof (occurrences_nonneg t d td_pairs).
      destruct (decide (occurrences t d td_pairs = 0)).
      - split; [by intros [? ?] | lia].
      - split; [lia | eauto]. }
    assert (Htf : (fun doc_id => default 0 (default ∅ (term_dict !! t) !! doc_id))
                    <$> sorted_keys (default ∅ (term_dict !! t))
                  = (fun d => occurrences t d td_pairs)
                    <$> sorted_keys (default ∅ (term_dict !! t))).
    { apply list_fmap_ext. intros i d Hd.
      fold (term_dict_lookup term_dict t d). rewrite Hlook.
      destruct (decide (occurrences t d td_pairs = 0)) as [->|]; reflexivity. }
    split; [apply sorted_keys_sorted|]. split; [exact Hdoc|]. split; [exact Htf|].
    rewrite Htf. apply Forall_fmap, Forall_forall. intros d Hd.
    simpl. by apply occurrences_pos, Hdoc.
Qed.

(** ** The merged stream of two readers *)

Lemma merge2_stream_nil_l (l2 : list triple) : merge2_stream [] l2 = l2.
Proof. by destruct l2. Qed.

Lemma merge2_stream_nil_r (l1 : list triple) : merge2_stream l1 [] = l1.
Proof. by destruct l1. Qed.

Lemma merge2_stream_cons (x y : triple) (l1 l2 : list triple) :
  merge2_stream (x :: l1) (y :: l2)
  = if termId x <=? termId y then x :: merge2_stream l1 (y :: l2)
    else y :: merge2_stream (x :: l1) l2.
Proof. reflexivity. Qed.

Lemma heapq_merge_steps_two (n : nat) (l1 l2 : list triple) :
  (length l1 + length l2 <= n)%nat ->
  heapq_merge_steps n [l1; l2] = merge2_stream l1 l2.
Proof.
  revert l1 l2. induction n as [|n IH]; intros l1 l2 Hn.
  - destruct l1, l2; simpl in Hn; try lia. reflexivity.
  - destruct l1 as [|x l1], l2 as [|y l2].
    + reflexivity.
    + cbn [heapq_merge_steps select_min]. rewrite IH by (simpl in *; lia).
      by rewrite !merge2_stream_nil_l.
    + cbn [heapq_merge_steps select_min]. rewrite IH by (simpl in *; lia).
      by rewrite !merge2_stream_nil_r.
    + rewrite merge2_stream_cons. cbn [heapq_merge_steps select_min].
      destruct (termId x <=? termId y); rewrite IH by (simpl in *; lia); reflexivity.
Qed.

Lemma heapq_merge_two (l1 l2 : list triple) :
  heapq_merge [l1; l2] = merge2_stream l1 l2.
Proof.
  unfold heapq_merge. apply heapq_merge_steps_two.
  cbn [concat]. rewrite !length_app. simpl. lia.
Qed.

(** ** The grouping loop *)

Lemma merge_step_grouped (stream : list triple) (index : InvertedIndexWriter)
    (acc : triple) :
  let '(index', (curr, postings, tf_list)) :=
    fold_left merge_step stream (index, acc) in
  appended (append index' curr postings tf_list)
  = appended index ++ grouped acc stream.
Proof.
  revert index acc. induction stream as [|item rest IH]; intros index acc.
  - destruct acc as [[curr postings] tf_list]. reflexivity.
  - cbn [fold_left grouped].
    destruct acc as [[curr postings] tf_list], item as [[t postings_] tf_list_].
    unfold merge_step at 2. unfold termId. cbn [fst snd].
    destruct (t =? curr).
    + apply (IH index).
    + specialize (IH (append index curr postings tf_list) (t, postings_, tf_list_)).
      destruct (fold_left merge_step rest _) as [index' [[c p] f]].
      rewrite IH. cbn [append appended]. by rewrite <- app_assoc.
Qed.

Lemma merge_index_appended (indices : list InvertedIndexReader)
    (merged_index : InvertedIndexWriter) :
  appended (fst (merge_index indices merged_index))
  = appended merged_index ++ grouped_stream (heapq_merge (triples <$> indices)).
Proof.
  unfold merge_index. destruct (heapq_merge _) as [|first rest].
  - simpl. by rewrite app_nil_r.
  - pose proof (merge_step_grouped rest merged_index first) as Hg.
    destruct (fold_left merge_step rest _) as [index' [[c p] f]]. exact Hg.
Qed.

(** ** Two sorted readers *)

Lemma merge2_nil_l (l2 : list triple) : merge2 [] l2 = l2.
Proof. by destruct l2. Qed.

Lemma merge2_nil_r (l1 : list triple) : merge2 l1 [] = l1.
Proof. by destruct l1. Qed.

Lemma merge2_cons (x y : triple) (l1 l2 : list triple) :
  merge2 (x :: l1) (y :: l2)
  = if termId x <? termId y then x :: merge2 l1 (y :: l2)
    else if termId y <? termId x then y :: merge2 (x :: l1) l2
    else merge_entries x y :: merge2 l1 l2.
Proof. reflexivity. Qed.

Lemma ascending_cons (x : triple) (l : list triple) :
  ascending (x :: l) <-> ascending l /\ Forall (fun y => termId x < termId y) l.
Proof.
  unfold ascending. rewrite fmap_cons. split.
  - intros Hs. apply StronglySorted_inv in Hs as [Hs Hall]. split; [done|].
    rewrite Forall_fmap in Hall. exact Hall.
  - intros [Hs Hall]. constructor; [done|]. rewrite Forall_fmap. exact Hall.
Qed.

Lemma above_mono (c c' : Z) (l : list triple) : c <= c' -> above c' l -> above c l.
Proof. intros Hc Hl. eapply Forall_impl; [exact Hl|]. simpl. intros y Hy. lia. Qed.

Lemma merge2_stream_above (c : Z) (l1 l2 : list triple) :
  above c l1 -> above c l2 -> above c (merge2_stream l1 l2).
Proof.
  revert l2. induction l1 as [|x l1 IH1]; intros l2 H1 H2.
  - by rewrite merge2_stream_nil_l.
  - induction l2 as [|y l2 IH2].
    + by rewrite merge2_stream_nil_r.
    + rewrite merge2_stream_cons.
      apply Forall_cons in H1 as [Hx H1]. apply Forall_cons in H2 as [Hy H2].
      destruct (termId x <=? termId y).
      * constructor; [done|]. apply IH1; [done | by constructor].
      * constructor; [done|]. by apply IH2.
Qed.

Lemma grouped_above (acc : triple) (stream : list triple) :
  above (termId acc) stream -> grouped acc stream = acc :: grouped_stream stream.
Proof.
  destruct stream as [|item rest]; [reflexivity|].
  intros Habove. apply Forall_cons in Habove as [Hitem _].
  cbn [grouped grouped_stream]. destruct (termId item =? termId acc) eqn:E; [lia | reflexivity].
Qed.

Lemma grouped_stream_ascending (l : list triple) :
  ascending l -> grouped_stream l = l.
Proof.
  induction l as [|x l IH]; [reflexivity|].
  intros [Hs Hall]%ascending_cons. cbn [grouped_stream].
  rewrite grouped_above by done. by rewrite IH.
Qed.

Lemma termId_merge_entries (x y : triple) : termId (merge_entries x y) = termId x.
Proof. reflexivity. Qed.

Lemma grouped_merge2 (l1 l2 : list triple) :
  ascending l1 -> ascending l2 ->
  grouped_stream (merge2_stream l1 l2) = merge2 l1 l2.
Proof.
  revert l2. induction l1 as [|x l1 IH1]; intros l2 H1 H2.
  - rewrite merge2_stream_nil_l, merge2_nil_l. by apply grouped_stream_ascending.
  - induction l2 as [|y l2 IH2].
    + rewrite merge2_stream_nil_r, merge2_nil_r. by apply grouped_stream_ascending.
    + pose proof H1 as [H1' Hx]%ascending_cons.
      pose proof H2 as [H2' Hy]%ascending_cons.
      rewrite merge2_stream_cons, merge2_cons.
      destruct (Z.lt_trichotomy (termId x) (termId y)) as [Hlt|[Heq|Hgt]].
      * destruct (termId x <=? termId y) eqn:E1; [|lia].
        destruct (termId x <? termId y) eqn:E2; [|lia].
        cbn [grouped_stream]. rewrite grouped_above.
        -- by rewrite IH1.
        -- apply merge2_stream_above; [done|]. constructor; [done|].
           eapply Forall_impl; [exact Hy|]. simpl. intros; lia.
      * destruct (termId x <=? termId y) eqn:E1; [|lia].
        destruct (termId x <? termId y) eqn:E2; [lia|].
        destruct (termId y <? termId x) eqn:E3; [lia|].
        cbn [grouped_stream].
        assert (Hs : merge2_stream l1 (y :: l2) = y :: merge2_stream l1 l2).
        { destruct l1 as [|x' l1]; [by rewrite !merge2_stream_nil_l|].
          rewrite merge2_stream_cons. apply Forall_cons in Hx as [Hx' _].
          destruct (termId x' <=? termId y) eqn:E4; [lia | reflexivity]. }
        rewrite Hs. cbn [grouped]. destruct (termId y =? termId x) eqn:E5; [|lia].
        rewrite grouped_above.
        -- by rewrite IH1.
        -- rewrite termId_merge_entries. apply merge2_stream_above; [done|].
           eapply Forall_impl; [exact Hy|]. simpl. intros; lia.
      * destruct (termId x <=? termId y) eqn:E1; [lia|].
        destruct (termId x <? termId y) eqn:E2; [lia|].
        destruct (termId y <? termId x) eqn:E3; [|lia].
        cbn [grouped_stream]. rewrite grouped_above.
        -- by rewrite IH2.
        -- apply merge2_stream_above; [|done]. constructor; [done|].
           eapply Forall_impl; [exact Hx|]. simpl. intros; lia.
Qed.

Lemma merge2_above (c : Z) (l1 l2 : list triple) :
  above c l1 -> above c l2 -> above c (merge2 l1 l2).
Proof.
  revert l2. induction l1 as [|x l1 IH1]; intros l2 H1 H2.
  - by rewrite merge2_nil_l.
  - induction l2 as [|y l2 IH2].
    + by rewrite merge2_nil_r.
    + rewrite merge2_cons.
      apply Forall_cons in H1 as [Hx H1]. apply Forall_cons in H2 as [Hy H2].
      destruct (termId x <? termId y); [|destruct (termId y <? termId x)].
      * constructor; [done|]. apply IH1; [done | by constructor].
      * constructor; [done|]. by apply IH2.
      * constructor; [by rewrite termId_merge_entries|]. by apply IH1.
Qed.

Lemma merge2_ascending (l1 l2 : list triple) :
  ascending l1 -> ascending l2 -> ascending (merge2 l1 l2).
Proof.
  revert l2. induction l1 as [|x l1 IH1]; intros l2 H1 H2.
  - by rewrite merge2_nil_l.
  - induction l2 as [|y l2 IH2].
    + by rewrite merge2_nil_r.
    + pose proof H1 as [H1' Hx]%ascending_cons.
      pose proof H2 as [H2' Hy]%ascending_cons.
      rewrite merge2_cons.
      destruct (termId x <? termId y) eqn:E1; [|destruct (termId y <? termId x) eqn:E2].
      * apply ascending_cons. split; [by apply IH1|].
        apply merge2_above; [done|]. constructor; [lia|].
        eapply Forall_impl; [exact Hy|]. simpl. intros; lia.
      * apply ascending_cons. split; [by apply IH2|].
        apply merge2_above; [|done]. constructor; [lia|].
        eapply Forall_impl; [exact Hx|]. simpl. intros; lia.
      * apply ascending_cons. split; [by apply IH1|].
        rewrite termId_merge_entries. apply merge2_above; [done|].
        eapply Forall_impl; [exact Hy|]. simpl. intros; lia.
Qed.

Lemma merge2_termIds (l1 l2 : list triple) (t : Z) :
  t ∈ termId <$> merge2 l1 l2 <-> t ∈ termId <$> l1 \/ t ∈ termId <$> l2.
Proof.
  revert l2. induction l1 as [|x l1 IH1]; intros l2.
  - rewrite merge2_nil_l. rewrite fmap_nil, elem_of_nil. tauto.
  - induction l2 as [|y l2 IH2].
    + rewrite merge2_nil_r. rewrite (fmap_nil termId), elem_of_nil. tauto.
    + rewrite merge2_cons.
      destruct (termId x <? termId y) eqn:E1; [|destruct (termId y <? termId x) eqn:E2].
      * rewrite !fmap_cons, !elem_of_cons, IH1, fmap_cons, elem_of_cons. tauto.
      * rewrite !fmap_cons, !elem_of_cons, IH2, fmap_cons, elem_of_cons. tauto.
      * rewrite !fmap_cons, !elem_of_cons, IH1, termId_merge_entries.
        assert (termId x = termId y) by lia. intuition congruence.
Qed.

Lemma merge2_only_left (l1 l2 : list triple) (x : triple) :
  x ∈ l1 -> termId x ∉ termId <$> l2 -> x ∈ merge2 l1 l2.
Proof.
  revert l2. induction l1 as [|a l1 IH1]; intros l2 Hx Hn.
  - by apply elem_of_nil in Hx.
  - induction l2 as [|b l2 IH2].
    + by rewrite merge2_nil_r.
    + rewrite merge2_cons. rewrite fmap_cons, not_elem_of_cons in Hn.
      destruct Hn as [Hb Hn].
      destruct (termId a <? termId b) eqn:E1; [|destruct (termId b <? termId a) eqn:E2].
      * apply elem_of_cons in Hx as [->|Hx]; [left|right].
        apply IH1; [done|]. rewrite fmap_cons, not_elem_of_cons. done.
      * right. by apply IH2.
      * right. apply elem_of_cons in Hx as [->|Hx]; [lia|]. by apply IH1.
Qed.

Lemma merge2_only_right (l1 l2 : list triple) (y : triple) :
  y ∈ l2 -> termId y ∉ termId <$> l1 -> y ∈ merge2 l1 l2.
Proof.
  revert l2. induction l1 as [|a l1 IH1]; intros l2 Hy Hn.
  - by rewrite merge2_nil_l.
  - induction l2 as [|b l2 IH2].
    + by apply elem_of_nil in Hy.
    + rewrite merge2_cons. rewrite fmap_cons, not_elem_of_cons in Hn.
      destruct Hn as [Ha Hn].
      destruct (termId a <? termId b) eqn:E1; [|destruct (termId b <? termId a) eqn:E2].
      * right. by apply IH1.
      * apply elem_of_cons in Hy as [->|Hy]; [left|right]. by apply IH2.
      * right. apply elem_of_cons in Hy as [->|Hy]; [lia|]. by apply IH1.
Qed.

Lemma merge2_both (l1 l2 : list triple) (x y : triple) :
  ascending l1 -> ascending l2 ->
  x ∈ l1 -> y ∈ l2 -> termId x = termId y -> merge_entries x y ∈ merge2 l1 l2.
Proof.
  revert l2. induction l1 as [|a l1 IH1]; intros l2 H1 H2 Hx Hy Heq.
  - by apply elem_of_nil in Hx.
  - induction l2 as [|b l2 IH2].
    + by apply elem_of_nil in Hy.
    + pose proof H1 as [H1' Ha]%ascending_cons.
      pose proof H2 as [H2' Hb]%ascending_cons.
      rewrite Forall_forall in Ha, Hb.
      rewrite merge2_cons.
      destruct (termId a <? termId b) eqn:E1; [|destruct (termId b <? termId a) eqn:E2].
      * right. apply elem_of_cons in Hx as [->|Hx]; [|by apply IH1].
        apply elem_of_cons in Hy as [->|Hy]; [lia|]. specialize (Hb _ Hy). lia.
      * right. apply elem_of_cons in Hy as [->|Hy]; [|by apply IH2].
        apply elem_of_cons in Hx as [->|Hx]; [lia|]. specialize (Ha _ Hx). lia.
      * apply elem_of_cons in Hx as [->|Hx]; apply elem_of_cons in Hy as [->|Hy].
        -- left.
        -- specialize (Hb _ Hy). lia.
        -- specialize (Ha _ Hx). lia.
        -- right. by apply IH1.
Qed.

(** ** The two-pointer merge of postings *)

Lemma merge_posts_nil_l (l2 : list (Z * Z)) : merge_and_sort_posts_and_tfs [] l2 = l2.
Proof. by destruct l2. Qed.

Lemma merge_posts_nil_r (l1 : list (Z * Z)) : merge_and_sort_posts_and_tfs l1 [] = l1.
Proof. by destruct l1 as [|[? ?] ?]. Qed.

Lemma merge_posts_cons (doc1 tf1 doc2 tf2 : Z) (l1 l2 : list (Z * Z)) :
  merge_and_sort_posts_and_tfs ((doc1, tf1) :: l1) ((doc2, tf2) :: l2)
  = if doc1 <? doc2 then
      (doc1, tf1) :: merge_and_sort_posts_and_tfs l1 ((doc2, tf2) :: l2)
    else if doc2 <? doc1 then
      (doc2, tf2) :: merge_and_sort_posts_and_tfs ((doc1, tf1) :: l1) l2
    else (doc1, tf1 + tf2) :: merge_and_sort_posts_and_tfs l1 l2.
Proof. reflexivity. Qed.

Lemma merge_posts_Permutation (l1 l2 : list (Z * Z)) :
  (forall d, d ∈ l1.*1 -> d ∉ l2.*1) ->
  merge_and_sort_posts_and_tfs l1 l2 ≡ₚ l1 ++ l2.
Proof.
  revert l2. induction l1 as [|[doc1 tf1] l1 IH1]; intros l2 Hdisj.
  - by rewrite merge_posts_nil_l.
  - induction l2 as [|[doc2 tf2] l2 IH2].
    + by rewrite merge_posts_nil_r, app_nil_r.
    + rewrite merge_posts_cons.
      destruct (doc1 <? doc2) eqn:E1; [|destruct (doc2 <? doc1) eqn:E2].
      * cbn [app]. f_equiv. apply IH1. intros d Hd. apply Hdisj. rewrite fmap_cons. by right.
      * rewrite IH2.
        -- by rewrite (Permutation_middle ((doc1, tf1) :: l1) l2 (doc2, tf2)).
        -- intros d Hd Hd2. apply (Hdisj d Hd). rewrite fmap_cons. by right.
      * exfalso. apply (Hdisj doc1); rewrite fmap_cons; [by left|].
        assert (doc1 = doc2) as -> by lia. by left.
Qed.

Lemma merge_posts_above (c : Z) (l1 l2 : list (Z * Z)) :
  Forall (fun d => c < d) l1.*1 -> Forall (fun d => c < d) l2.*1 ->
  Forall (fun d => c < d) (merge_and_sort_posts_and_tfs l1 l2).*1.
Proof.
  revert l2. induction l1 as [|[doc1 tf1] l1 IH1]; intros l2 H1 H2.
  - by rewrite merge_posts_nil_l.
  - induction l2 as [|[doc2 tf2] l2 IH2].
    + by rewrite merge_posts_nil_r.
    + rewrite merge_posts_cons. rewrite fmap_cons in H1, H2.
      apply Forall_cons in H1 as [Hx H1]. apply Forall_cons in H2 as [Hy H2].
      destruct (doc1 <? doc2); [|destruct (doc2 <? doc1)]; rewrite fmap_cons.
      * constructor; [done|]. apply IH1; [done|]. rewrite fmap_cons. by constructor.
      * constructor; [done|]. by apply IH2.
      * constructor; [done|]. by apply IH1.
Qed.

Lemma merge_posts_sorted (l1 l2 : list (Z * Z)) :
  StronglySorted Z.lt l1.*1 -> StronglySorted Z.lt l2.*1 ->
  StronglySorted Z.lt (merge_and_sort_posts_and_tfs l1 l2).*1.
Proof.
  revert l2. induction l1 as [|[doc1 tf1] l1 IH1]; intros l2 H1 H2.
  - by rewrite merge_posts_nil_l.
  - induction l2 as [|[doc2 tf2] l2 IH2].
    + by rewrite merge_posts_nil_r.
    + rewrite merge_posts_cons. rewrite fmap_cons in H1, H2.
      pose proof H1 as [H1' Hx]%StronglySorted_inv.
      pose proof H2 as [H2' Hy]%StronglySorted_inv. cbn [fst] in *.
      destruct (doc1 <? doc2) eqn:E1; [|destruct (doc2 <? doc1) eqn:E2]; rewrite fmap_cons.
      * constructor; [by apply IH1|]. apply merge_posts_above; [done|].
        rewrite fmap_cons. constructor; [simpl; lia|].
        eapply Forall_impl; [exact Hy|]. simpl. intros; lia.
      * constructor; [by apply IH2|]. apply merge_posts_above; [|done].
        rewrite fmap_cons. constructor; [simpl; lia|].
        eapply Forall_impl; [exact Hx|]. simpl. intros; lia.
      * constructor; [by apply IH1|]. apply merge_posts_above; [done|].
        eapply Forall_impl; [exact Hy|]. simpl. intros; lia.
Qed.

Lemma merge_entries_spec (t : Z) (p1 f1 p2 f2 : list Z) :
  StronglySorted Z.lt p1 -> StronglySorted Z.lt p2 ->
  length f1 = length p1 -> length f2 = length p2 ->
  (forall d, d ∈ p1 -> d ∉ p2) ->
  exists p f,
    merge_entries (t, p1, f1) (t, p2, f2) = (t, p, f)
    /\ StronglySorted Z.lt p
    /\ p ≡ₚ p1 ++ p2
    /\ zip p f ≡ₚ zip p1 f1 ++ zip p2 f2
    /\ length f = length p.
Proof.
  intros Hs1 Hs2 Hl1 Hl2 Hdisj. unfold merge_entries, postings_of, tfs_of, termId. cbn [fst snd].
  set (z := merge_and_sort_posts_and_tfs (zip p1 f1) (zip p2 f2)).
  assert (Hp1 : (zip p1 f1).*1 = p1) by (apply fst_zip; lia).
  assert (Hp2 : (zip p2 f2).*1 = p2) by (apply fst_zip; lia).
  assert (Hperm : z ≡ₚ zip p1 f1 ++ zip p2 f2).
  { apply merge_posts_Permutation. rewrite Hp1, Hp2. exact Hdisj. }
  exists (z.*1), (z.*2). split; [reflexivity|]. split; [|split; [|split]].
  - apply merge_posts_sorted; by rewrite ?Hp1, ?Hp2.
  - rewrite Hperm, fmap_app, Hp1, Hp2. reflexivity.
  - rewrite zip_fst_snd. exact Hperm.
  - by rewrite !length_fmap.
Qed.

(** C5.  For two readers with strictly ascending term ids, well-formed
    postings and disjoint documents, [merge_index] appends one entry per
    distinct term id, in strictly ascending order; an entry of a term found
    in one reader only is appended unchanged, and the entry of a term found
    in both has the ascending union of the two postings lists, every
    document keeping its term frequency. *)
Theorem merge_index_two (r1 r2 : InvertedIndexReader) (merged_index : InvertedIndexWriter) :
  ascending (triples r1) -> ascending (triples r2) ->
  postings_wf (triples r1) -> postings_wf (triples r2) ->
  (forall x y d, x ∈ triples r1 -> y ∈ triples r2 ->
                 d ∈ postings_of x -> d ∉ postings_of y) ->
  exists out,
    appended (fst (merge_index [r1; r2] merged_index)) = appended merged_index ++ out
    /\ StronglySorted Z.lt (termId <$> out)
    /\ (forall t, t ∈ termId <$> out
                  <-> t ∈ termId <$> triples r1 \/ t ∈ termId <$> triples r2)
    /\ (forall x, x ∈ triples r1 -> termId x ∉ termId <$> triples r2 -> x ∈ out)
    /\ (forall y, y ∈ triples r2 -> termId y ∉ termId <$> triples r1 -> y ∈ out)
    /\ (forall t p1 f1 p2 f2,
          (t, p1, f1) ∈ triples r1 -> (t, p2, f2) ∈ triples r2 ->
          exists p f,
            (t, p, f) ∈ out
            /\ StronglySorted Z.lt p
            /\ p ≡ₚ p1 ++ p2
            /\ zip p f ≡ₚ zip p1 f1 ++ zip p2 f2
            /\ length f = length p).
Proof.
  intros Ha1 Ha2 Hwf1 Hwf2 Hdisj.
  exists (merge2 (triples r1) (triples r2)).
  split; [|split; [|split; [|split; [|split]]]].
  - rewrite merge_index_appended. cbn [fmap list_fmap].
    rewrite heapq_merge_two, grouped_merge2 by done. reflexivity.
  - by apply merge2_ascending.
  - intros t. apply merge2_termIds.
  - intros x. apply merge2_only_left.
  - intros y. apply merge2_only_right.
  - intros t p1 f1 p2 f2 H1 H2.
    unfold postings_wf in Hwf1, Hwf2. rewrite Forall_forall in Hwf1, Hwf2.
    destruct (Hwf1 _ H1) as [Hs1 Hl1]. destruct (Hwf2 _ H2) as [Hs2 Hl2].
    destruct (merge_entries_spec t p1 f1 p2 f2 Hs1 Hs2 Hl1 Hl2 (fun d => Hdisj _ _ d H1 H2))
      as (p & f & Hc & Hp).
    exists p, f. split; [|exact Hp].
    rewrite <- Hc. by apply merge2_both.
Qed.

Lemma heapq_merge_empty (its : list (list triple)) :
  Forall (fun it => it = []) its -> heapq_merge its = [].
Proof.
  intros Hall. unfold heapq_merge.
  replace (concat its) with (@nil triple); [reflexivity|].
  induction Hall as [|it its -> _ IH]; [reflexivity | exact IH].
Qed.

(** C9.  When no reader yields a triple, [merge_index] raises
    [StopIteration] and leaves the writer as it was. *)
Theorem merge_index_nothing_to_merge (indices : list InvertedIndexReader)
    (merged_index : InvertedIndexWriter) :
  Forall (fun r => triples r = []) indices ->
  merge_index indices merged_index = (merged_index, Raise StopIteration).
Proof.
  intros Hall. unfold merge_index.
  rewrite heapq_merge_empty; [reflexivity|].
  rewrite Forall_fmap. exact Hall.
Qed.

Lemma merge_index_nothing_to_merge_witness :
  merge_index [] new_writer = (new_writer, Raise StopIteration)
  /\ merge_index [Reader [] ∅; Reader [] ∅] new_writer
     = (new_writer, Raise StopIteration).
Proof.
  split.
  - apply (merge_index_nothing_to_merge [] new_writer). constructor.
  - apply (merge_index_nothing_to_merge [Reader [] ∅; Reader [] ∅] new_writer).
    repeat constructor.
Defined.

Ltac elem_cases H :=
  repeat (apply elem_of_cons in H as [H|H]; [subst|]); try (by apply elem_of_nil in H).

Lemma merge_index_two_witness :
  exists out,
    appended (fst (merge_index [block_a; block_b] new_writer))
    = appended new_writer ++ out
    /\ StronglySorted Z.lt (termId <$> out).
Proof.
  destruct (merge_index_two block_a block_b new_writer) as (out & Happ & Hsorted & _).
  - unfold ascending. simpl. repeat (constructor; try lia).
  - unfold ascending. simpl. repeat (constructor; try lia).
  - unfold postings_wf. simpl. repeat (constructor; try lia).
  - unfold postings_wf. simpl. repeat (constructor; try lia).
  - intros x y d Hx Hy Hd Hd'. simpl in Hx, Hy.
    elem_cases Hx; elem_cases Hy; simpl in Hd, Hd';
      elem_cases Hd; elem_cases Hd'; congruence.
  - exists out. split; assumption.
Defined.

Example merge_blocks :
  appended (fst (merge_index [block_a; block_b] new_writer))
  = [(0, [1; 4; 7], [2; 1; 5]); (1, [7; 9], [1; 1]); (2, [4], [3])].
Proof. vm_compute. reflexivity. Qed.

(** ** Retrieval *)

Section RetrievalShape.
Context `{externals}.

Lemma tfidf_terms_shape idx N m scores terms :
  tfidf_terms idx N m scores terms = score_terms tfidf_postings idx N m scores terms.
Proof.
  revert m scores. induction terms as [|term rest IH]; intros m scores; [reflexivity|].
  cbn [tfidf_terms score_terms].
  destruct (IdMap.get_id m term) as [term_id m'].
  destruct (get_postings_list idx term_id) as [postings_list tf_list].
  destruct (0 <? _); [|apply IH].
  destruct (math_log10 _); [|reflexivity].
  destruct (tfidf_postings _ _ _); [apply IH | reflexivity].
Qed.

Lemma bm25_terms_shape idx N m scores terms :
  bm25_terms idx N m scores terms = score_terms bm25_postings idx N m scores terms.
Proof.
  revert m scores. induction terms as [|term rest IH]; intros m scores; [reflexivity|].
  cbn [bm25_terms score_terms].
  destruct (IdMap.get_id m term) as [term_id m'].
  destruct (get_postings_list idx term_id) as [postings_list tf_list].
  destruct (0 <? _); [|apply IH].
  destruct (math_log10 _); [|reflexivity].
  destruct (bm25_postings _ _ _); [apply IH | reflexivity].
Qed.

Lemma retrieve_tfidf_shape self idx query k :
  retrieve_tfidf self idx query k
  = ranked_top self k
      (score_terms tfidf_postings idx (Z.of_nat (size (reader_doc_length idx)))
         (term_id_map self) [] (pre_processing_text query)).
Proof.
  unfold retrieve_tfidf, ranked_top. rewrite tfidf_terms_shape.
  by destruct (score_terms _ _ _ _ _ _).
Qed.

Lemma retrieve_bm25_shape self idx query k k1 b :
  retrieve_bm25 self idx query k k1 b
  = ranked_top self k
      (score_terms bm25_postings idx (Z.of_nat (size (reader_doc_length idx)))
         (term_id_map self) [] (pre_processing_text query)).
Proof.
  unfold retrieve_bm25, ranked_top. rewrite bm25_terms_shape.
  by destruct (score_terms _ _ _ _ _ _).
Qed.

End RetrievalShape.

(** ** BM25 against TF-IDF *)

Lemma float_mul_comm (x y : float) : PrimFloat.mul x y = PrimFloat.mul y x.
Proof.
  apply Prim2SF_inj. rewrite !mul_spec. unfold SF64mul, SFmul.
  destruct (Prim2SF x), (Prim2SF y); simpl; try reflexivity;
    try (rewrite xorb_comm; reflexivity).
  rewrite xorb_comm, Pos.mul_comm, Z.add_comm. reflexivity.
Qed.

Section Bm25.
Context `{externals}.

Lemma get_postings_list_elem idx term_id :
  get_postings_list idx term_id = ([], [])
  \/ exists x, x ∈ triples idx /\ termId x = term_id
               /\ get_postings_list idx term_id = (postings_of x, tfs_of x).
Proof.
  unfold get_postings_list.
  destruct (list_find _ _) as [[i x]|] eqn:E; [right | by left].
  apply list_find_Some in E as (Hi & Hx & _).
  exists x. split; [by eapply list_elem_of_lookup_2 | done].
Qed.

Lemma bm25_postings_tfidf idf scores posts :
  Forall (fun tf => 1 <= tf) posts.*2 ->
  bm25_postings idf scores posts = tfidf_postings idf scores posts.
Proof.
  revert scores. induction posts as [|[doc_id tf] posts IH]; intros scores Htf;
    [reflexivity|].
  rewrite fmap_cons in Htf. apply Forall_cons in Htf as [Htf1 Htf].
  cbn [bm25_postings tfidf_postings snd] in *.
  destruct (0 <? tf) eqn:E; [|lia].
  unfold math_log10_int. destruct (tf <=? 0) eqn:E'; [lia|].
  rewrite !bind_Ok. rewrite float_mul_comm. by apply IH.
Qed.

Lemma bm25_terms_tfidf idx N m scores terms :
  tfs_positive idx ->
  score_terms bm25_postings idx N m scores terms
  = score_terms tfidf_postings idx N m scores terms.
Proof.
  intros Hpos. revert m scores.
  induction terms as [|term rest IH]; intros m scores; [reflexivity|].
  cbn [score_terms].
  destruct (IdMap.get_id m term) as [term_id m'].
  destruct (get_postings_list_elem idx term_id) as [->|(x & Hx & _ & ->)].
  - simpl. apply IH.
  - destruct (0 <? _); [|apply IH].
    destruct (math_log10 _); [|reflexivity].
    rewrite bm25_postings_tfidf.
    + destruct (tfidf_postings _ _ _); [apply IH | reflexivity].
    + unfold tfs_positive in Hpos. rewrite Forall_forall in Hpos.
      specialize (Hpos x Hx). rewrite Forall_forall in Hpos |- *.
      intros tf Htf. apply Hpos.
      apply list_elem_of_fmap in Htf as ([d tf'] & -> & Hin).
      by apply elem_of_zip_r in Hin.
Qed.

(** C3.  When every stored term frequency is at least 1, [retrieve_bm25]
    returns what [retrieve_tfidf] returns, whatever [k1] and [b] are, and
    leaves the same identifier maps. *)
Theorem retrieve_bm25_is_tfidf self idx query k k1 b :
  tfs_positive idx ->
  retrieve_bm25 self idx query k k1 b = retrieve_tfidf self idx query k.
Proof.
  intros Hpos. rewrite retrieve_bm25_shape, retrieve_tfidf_shape.
  by rewrite bm25_terms_tfidf.
Qed.
End Bm25.

(** ** The identifier map *)


Lemma IdMap_lookup_None (m : IdMap.t) (s : string) :
  IdMap.lookup m s = None <-> s ∉ m.
Proof.
  unfold IdMap.lookup. rewrite fmap_None, list_find_None, Forall_forall.
  split; [intros Hall Hin; by apply (Hall s) | intros Hn x Hx ->; done].
Qed.

Lemma IdMap_lookup_app_l (m e : IdMap.t) (s : string) (i : Z) :
  IdMap.lookup m s = Some i -> IdMap.lookup (m ++ e) s = Some i.
Proof.
  unfold IdMap.lookup. destruct (list_find _ m) as [[j x]|] eqn:E; [|done].
  intros [= <-]. by rewrite (list_find_app_l _ _ _ _ _ E).
Qed.

Lemma IdMap_lookup_app_r (m e : IdMap.t) (s : string) (i : Z) :
  IdMap.lookup m s = None -> IdMap.lookup (m ++ e) s = Some i ->
  Z.of_nat (length m) <= i.
Proof.
  unfold IdMap.lookup. intros Hnone%fmap_None.
  rewrite list_find_app_r by done.
  destruct (list_find _ e) as [[j x]|]; [|done]. simpl. intros [= <-]. lia.
Qed.

(** A lookup returns the id already assigned, or assigns the next one. *)
Lemma IdMap_get_id_spec (m : IdMap.t) (s : string) :
  (exists i, IdMap.lookup m s = Some i /\ IdMap.get_id m s = (i, m))
  \/ (IdMap.lookup m s = None
      /\ IdMap.get_id m s = (Z.of_nat (length m), m ++ [s])).
Proof.
  unfold IdMap.get_id. destruct (IdMap.lookup m s) as [i|]; [left; eauto | by right].
Qed.

(** ** The index *)

Lemma get_postings_list_absent (idx : InvertedIndexReader) (term_id : Z) :
  term_id ∉ termId <$> triples idx -> get_postings_list idx term_id = ([], []).
Proof.
  intros Hn. unfold get_postings_list.
  destruct (list_find _ _) as [[i x]|] eqn:E; [|reflexivity].
  apply list_find_Some in E as (Hi & Hx & _). destruct Hn.
  apply list_elem_of_fmap. exists x. split; [done | by eapply list_elem_of_lookup_2].
Qed.

Lemma covers_absent (m : IdMap.t) (idx : InvertedIndexReader) (i : Z) :
  covers m idx -> Z.of_nat (length m) <= i -> i ∉ termId <$> triples idx.
Proof.
  intros Hc Hi Hin. apply list_elem_of_fmap in Hin as (x & -> & Hx).
  unfold covers in Hc. rewrite Forall_forall in Hc. specialize (Hc x Hx). lia.
Qed.

Section Known.
Context `{externals}.
Variable inner : float -> list (Z * float) -> list (Z * Z) -> result (list (Z * float)).

Lemma score_terms_known (m : IdMap.t) (idx : InvertedIndexReader) (N : Z)
    (terms : list string) :
  covers m idx ->
  forall e scores,
    snd (score_terms inner idx N (m ++ e) scores terms)
    = known_terms inner m idx N scores terms.
Proof.
  intros Hc. induction terms as [|term rest IH]; intros e scores; [reflexivity|].
  cbn [score_terms known_terms].
  destruct (IdMap.lookup m term) as [i|] eqn:Hm.
  - destruct (IdMap_get_id_spec (m ++ e) term) as [(j & Hj & ->)|[Hn _]].
    2: { by rewrite (IdMap_lookup_app_l _ _ _ _ Hm) in Hn. }
    rewrite (IdMap_lookup_app_l _ _ _ _ Hm) in Hj. injection Hj as <-.
    destruct (get_postings_list idx i) as [postings_list tf_list].
    destruct (length postings_list) as [|n]; [apply IH|].
    change (0 <? Z.of_nat (S n)) with true. change (Z.of_nat (S n) =? 0) with false.
    cbv iota. destruct (math_log10 _); [|reflexivity]. rewrite bind_Ok.
    destruct (inner _ _ _); [apply IH | reflexivity].
  - assert (Habs : forall j m', IdMap.get_id (m ++ e) term = (j, m') ->
              get_postings_list idx j = ([], []) /\ exists e', m' = m ++ e').
    { intros j m' Hg.
      destruct (IdMap_get_id_spec (m ++ e) term) as [(j' & Hj & Hg')|[Hn Hg']];
        rewrite Hg' in Hg; injection Hg as <- <-.
      - split; [|eauto]. apply get_postings_list_absent, (covers_absent m); [done|].
        by eapply IdMap_lookup_app_r.
      - split; [|exists (e ++ [term]); by rewrite app_assoc].
        apply get_postings_list_absent, (covers_absent m); [done|].
        rewrite length_app. lia. }
    destruct (IdMap.get_id (m ++ e) term) as [j m'].
    destruct (Habs j m' eq_refl) as [-> [e' ->]]. simpl. apply IH.
Qed.



End Known.

Lemma SFltb_asym (x y : spec_float) : SFltb x y = true -> SFltb y x = false.
Proof.
  unfold SFltb, SFcompare.
  destruct x as [sx|sx| |sx mx ex], y as [sy|sy| |sy my ey];
    try destruct sx; try destruct sy; simpl; try congruence.
  all: rewrite (Z.compare_antisym ex ey); destruct (ex ?= ey)%Z; simpl; try congruence.
  all: change (Pos.compare_cont Eq my mx) with (Pos.compare my mx).
  all: change (Pos.compare_cont Eq mx my) with (Pos.compare mx my).
  all: rewrite (Pos.compare_antisym mx my).
  all: destruct (mx ?= my)%positive; simpl; congruence.
Qed.

Lemma float_ltb_asym (x y : float) :
  PrimFloat.ltb x y = true -> PrimFloat.ltb y x = false.
Proof. rewrite !FloatAxioms.ltb_spec. apply SFltb_asym. Qed.

Lemma insert_desc_HdRel (y x : Z * float) (l : list (Z * float)) :
  HdRel (fun a b => not_below (snd a) (snd b)) y l ->
  not_below (snd y) (snd x) ->
  HdRel (fun a b => not_below (snd a) (snd b)) y (insert_desc x l).
Proof.
  intros Hhd Hyx. destruct l as [|z l]; [by constructor|].
  cbn [insert_desc]. apply HdRel_inv in Hhd.
  destruct (PrimFloat.ltb (snd x) (snd z)); by constructor.
Qed.

Lemma insert_desc_Sorted (x : Z * float) (l : list (Z * float)) :
  Sorted (fun a b => not_below (snd a) (snd b)) l ->
  Sorted (fun a b => not_below (snd a) (snd b)) (insert_desc x l).
Proof.
  induction 1 as [|y l Hs IH Hhd]; [repeat constructor|].
  cbn [insert_desc]. destruct (PrimFloat.ltb (snd x) (snd y)) eqn:E.
  - constructor; [exact IH|]. apply insert_desc_HdRel; [done|].
    by apply float_ltb_asym.
  - constructor; [by constructor | by constructor].
Qed.

Lemma sorted_desc_Sorted (items : list (Z * float)) :
  Sorted (fun a b => not_below (snd a) (snd b)) (sorted_desc items).
Proof.
  induction items as [|x items IH]; [constructor|]. by apply insert_desc_Sorted.
Qed.

Lemma Sorted_take {A : Type} (R : relation A) (n : nat) (l : list A) :
  Sorted R l -> Sorted R (take n l).
Proof.
  intros Hs. revert n. induction Hs as [|x l Hs IH Hhd]; intros [|n]; try constructor.
  - apply IH.
  - destruct Hhd; destruct n; constructor. done.
Qed.

Lemma Sorted_slice_to {A : Type} (R : relation A) (k : Z) (l : list A) :
  Sorted R l -> Sorted R (slice_to k l).
Proof. intros Hs. unfold slice_to. destruct (k <? 0); by apply Sorted_take. Qed.

Lemma resolve_docs_scores (documents : IdMap.t) (ranked : list (Z * float))
    (r : list (float * string)) :
  resolve_docs documents ranked = Ok r -> r.*1 = ranked.*2.
Proof.
  unfold resolve_docs. revert r. induction ranked as [|[doc_id score] ranked IH];
    intros r.
  - intros [= <-]. reflexivity.
  - cbn [mapM]. destruct (IdMap.get_str documents doc_id) as [path|]; [|done].
    rewrite !bind_Ok.
    destruct (mapM _ ranked) as [r'|] eqn:E; [|done].
    rewrite bind_Ok. intros [= <-]. rewrite !fmap_cons. cbn [fst snd]. f_equal. by apply IH.
Qed.

Lemma Sorted_snd (l : list (Z * float)) :
  Sorted (fun a b => not_below (snd a) (snd b)) l -> Sorted not_below l.*2.
Proof.
  induction 1 as [|x l Hs IH Hhd]; [constructor|].
  rewrite fmap_cons. constructor; [exact IH|].
  destruct Hhd; [constructor | rewrite fmap_cons; by constructor].
Qed.

Section Ranked.
Context `{externals}.

Lemma ranked_top_sorted self k scored r :
  snd (ranked_top self k scored) = Ok r -> Sorted not_below r.*1.
Proof.
  unfold ranked_top. cbn [snd]. destruct (snd scored) as [scores|]; [|done].
  rewrite bind_Ok. intros Hr%resolve_docs_scores. rewrite Hr.
  apply Sorted_snd, Sorted_slice_to, sorted_desc_Sorted.
Qed.
End Ranked.

Lemma accumulate_snoc scores contributions doc_id amount :
  accumulate scores (contributions ++ [(doc_id, amount)])
  = dict_add (accumulate scores contributions) doc_id amount.
Proof. unfold accumulate. by rewrite fold_left_app. Qed.

Lemma running_score_snoc contributions d amount doc_id :
  running_score (contributions ++ [(d, amount)]) doc_id
  = if d =? doc_id then PrimFloat.add (running_score contributions doc_id) amount
    else running_score contributions doc_id.
Proof. unfold running_score. by rewrite fold_left_app. Qed.

Lemma running_score_absent contributions doc_id :
  doc_id ∉ contributions.*1 -> running_score contributions doc_id = 0%float.
Proof.
  induction contributions as [|[d amount] contributions IH] using rev_ind;
    [reflexivity|].
  rewrite fmap_app, running_score_snoc. intros Hn.
  destruct (Z.eqb_spec d doc_id) as [->|_].
  - destruct Hn. apply elem_of_app. right. cbn. left.
  - apply IH. intros Hin. apply Hn, elem_of_app. by left.
Qed.

(** [dict_add] on a dictionary: the key is added to when it is there, and
    put last, added to 0, when it is not. *)
Lemma dict_add_spec (scores : list (Z * float)) (doc_id : Z) (amount : float) :
  (doc_id ∈ scores.*1 ->
   exists before score after,
     scores = before ++ (doc_id, score) :: after
     /\ (doc_id ∉ before.*1)
     /\ dict_add scores doc_id amount
        = before ++ (doc_id, PrimFloat.add score amount) :: after)
  /\ (doc_id ∉ scores.*1 ->
      dict_add scores doc_id amount = scores ++ [(doc_id, PrimFloat.add 0 amount)]).
Proof.
  induction scores as [|[d s] scores IH].
  - split; [by intros ?%elem_of_nil | reflexivity].
  - cbn [dict_add]. destruct (Z.eqb_spec d doc_id) as [->|Hne].
    + split.
      * intros _. exists [], s, scores. split; [done|]. split; [|done].
        apply not_elem_of_nil.
      * intros Hn. destruct Hn. rewrite fmap_cons. left.
    + destruct IH as [IH1 IH2]. split.
      * rewrite fmap_cons. intros [?|Hin]%elem_of_cons; [done|].
        destruct (IH1 Hin) as (before & score & after & -> & Hb & ->).
        exists ((d, s) :: before), score, after. split; [done|]. split; [|done].
        rewrite fmap_cons. intros [?|?]%elem_of_cons; done.
      * rewrite fmap_cons. intros Hn. rewrite IH2; [done|].
        intros Hin. apply Hn. by right.
Qed.

Lemma running_score_other contributions d amount (scores : list (Z * float)) :
  (d ∉ scores.*1) ->
  Forall (fun '(doc_id, score) => score = running_score contributions doc_id) scores ->
  Forall (fun '(doc_id, score) =>
            score = running_score (contributions ++ [(d, amount)]) doc_id) scores.
Proof.
  intros Hd Hall. rewrite Forall_forall in Hall |- *. intros [d' s'] Hx.
  specialize (Hall _ Hx). cbn in Hall. rewrite running_score_snoc.
  destruct (Z.eqb_spec d d') as [->|_]; [|done].
  destruct Hd. apply list_elem_of_fmap. by exists (d', s').
Qed.

Lemma accumulate_spec (contributions : list (Z * float)) :
  NoDup (accumulate [] contributions).*1
  /\ (forall doc_id, doc_id ∈ (accumulate [] contributions).*1
                     <-> doc_id ∈ contributions.*1)
  /\ Forall (fun '(doc_id, score) => score = running_score contributions doc_id)
            (accumulate [] contributions).
Proof.
  induction contributions as [|[d amount] contributions IH] using rev_ind.
  - split; [constructor|]. split; [done | constructor].
  - destruct IH as (IHn & IHk & IHs). rewrite accumulate_snoc.
    set (scores := accumulate [] contributions) in *.
    destruct (dict_add_spec scores d amount) as [Hin Hout].
    destruct (decide (d ∈ scores.*1)) as [Hd|Hd].
    + destruct (Hin Hd) as (before & score & after & Hsc & Hb & ->).
      rewrite Hsc in IHn, IHk, IHs.
      rewrite fmap_app, fmap_cons in IHn, IHk |- *. cbn [fst] in *.
      split; [exact IHn|]. split.
      * intros doc_id. rewrite IHk, (fmap_app _ contributions), (elem_of_app contributions.*1).
        cbn. rewrite list_elem_of_singleton. split; [tauto|].
        intros [?| ->]; [done|]. apply IHk. apply elem_of_app. right. left.
      * apply Forall_app in IHs as [IHb IHa]. apply Forall_cons in IHa as [IHd IHa].
        apply NoDup_app in IHn as (_ & _ & [Hda _]%NoDup_cons).
        apply Forall_app. split; [by apply running_score_other|].
        constructor; [|by apply running_score_other].
        rewrite running_score_snoc, Z.eqb_refl. by rewrite IHd.
    + rewrite (Hout Hd). rewrite fmap_app. cbn. split.
      * apply NoDup_app. split; [done|]. split; [|apply NoDup_singleton].
        intros x Hx ->%list_elem_of_singleton. done.
      * split.
        -- intros doc_id. rewrite !elem_of_app, IHk, fmap_app, elem_of_app. cbn. tauto.
        -- apply Forall_app. split; [by apply running_score_other|].
           constructor; [|constructor].
           rewrite running_score_snoc, Z.eqb_refl.
           rewrite running_score_absent; [done|]. by rewrite <- IHk.
Qed.

Lemma insert_desc_Permutation (x : Z * float) (l : list (Z * float)) :
  insert_desc x l ≡ₚ x :: l.
Proof.
  induction l as [|y l IH]; [reflexivity|]. cbn [insert_desc].
  destruct (PrimFloat.ltb _ _); [|reflexivity]. rewrite IH. apply Permutation_swap.
Qed.

Lemma sorted_desc_Permutation (items : list (Z * float)) : sorted_desc items ≡ₚ items.
Proof.
  induction items as [|x items IH]; [reflexivity|].
  unfold sorted_desc. cbn [foldr]. fold (sorted_desc items).
  by rewrite insert_desc_Permutation, IH.
Qed.

Lemma resolve_docs_spec (documents : IdMap.t) (ranked : list (Z * float)) :
  match resolve_docs documents ranked with
  | Ok r =>
      Forall2 (fun '(score, path) '(doc_id, score') =>
                 score = score' /\ IdMap.get_str documents doc_id = Ok path) r ranked
  | Raise e =>
      exists doc_id, doc_id ∈ ranked.*1 /\ IdMap.get_str documents doc_id = Raise e
  end.
Proof.
  unfold resolve_docs. induction ranked as [|[doc_id score] ranked IH].
  - constructor.
  - cbn [mapM]. destruct (IdMap.get_str documents doc_id) as [path|e] eqn:Estr.
    + rewrite bind_Ok. destruct (mapM _ ranked) as [r|e].
      * rewrite bind_Ok. by constructor.
      * destruct IH as (d & Hd & He). exists d. split; [|done]. rewrite fmap_cons. by right.
    + exists doc_id. split; [|done]. rewrite fmap_cons. left.
  Qed.





Section RetrievalProofs.
Context `{externals}.

Lemma tfidf_postings_spec idf scores posts :
  tfidf_postings idf scores posts
  = Ok (accumulate scores (spec_term_contributions idf posts)).
Proof.
  revert scores. induction posts as [|[doc_id tf] posts IH]; intros scores;
    [reflexivity|].
  change (accumulate scores (spec_term_contributions idf ((doc_id, tf) :: posts)))
    with (accumulate (dict_add scores doc_id (PrimFloat.mul idf (spec_weight tf)))
            (spec_term_contributions idf posts)).
  rewrite <- IH. cbn [tfidf_postings]. unfold spec_weight, math_log10_int.
  destruct (0 <? tf) eqn:E; [|reflexivity].
  destruct (tf <=? 0) eqn:E'; [lia | reflexivity].
Qed.

Lemma known_terms_spec m idx N scores terms :
  known_terms tfidf_postings m idx N scores terms
  = contributions ← spec_contributions m idx N terms;
    Ok (accumulate scores contributions).
Proof.
  revert scores. induction terms as [|term rest IH]; intros scores; [reflexivity|].
  cbn [known_terms spec_contributions].
  destruct (IdMap.lookup m term) as [i|]; [|apply IH].
  destruct (get_postings_list idx i) as [postings tfs].
  destruct (_ =? 0); [apply IH|].
  destruct (math_log10 _) as [idf|]; [|reflexivity]. rewrite !bind_Ok.
  rewrite tfidf_postings_spec, bind_Ok, IH.
  destruct (spec_contributions m idx N rest) as [later|]; [|reflexivity].
  rewrite !bind_Ok. unfold accumulate. by rewrite fold_left_app.
Qed.

Lemma slice_to_nonneg {A : Type} (k : Z) (l : list A) :
  0 <= k -> slice_to k l = take (Z.to_nat k) l.
Proof. intros Hk. unfold slice_to. destruct (k <? 0) eqn:E; [lia | reflexivity]. Qed.


Lemma length_resolve_docs (documents : IdMap.t) (ranked : list (Z * float))
    (r : list (float * string)) :
  resolve_docs documents ranked = Ok r -> length r = length ranked.
Proof.
  unfold resolve_docs. revert r. induction ranked as [|[doc_id score] ranked IH];
    intros r.
  - intros [= <-]. reflexivity.
  - cbn [mapM]. destruct (IdMap.get_str documents doc_id) as [path|]; [|done].
    rewrite !bind_Ok.
    destruct (mapM _ ranked) as [r'|] eqn:E; [|done].
    rewrite bind_Ok. intros [= <-]. simpl. f_equal. by apply IH.
Qed.

Lemma ranked_by_spec_sorted_desc (contributions : list (Z * float)) :
  ranked_by_spec contributions (sorted_desc (accumulate [] contributions)).
Proof.
  destruct (accumulate_spec contributions) as (Hn & Hk & Hs).
  pose proof (sorted_desc_Permutation (accumulate [] contributions)) as Hperm.
  split; [by rewrite Hperm|]. split; [intros d; by rewrite Hperm|].
  split; [by rewrite Hperm | apply sorted_desc_Sorted].
Qed.

(** C4.  For [k >= 0], and an index whose term ids were all assigned by
    the vocabulary, the outcome of [retrieve_tfidf] is the one the
    specification asks for: terms unknown to the vocabulary or without
    postings are skipped, every other term adds [idf * weight] to the
    running score of each document of its postings, every document added
    to is ranked once with its running score, no score is followed by a
    strictly larger one, and the first [k] are returned with their paths
    resolved.  The result has at most [k] pairs. *)
Theorem retrieve_tfidf_by_spec self idx query k :
  0 <= k -> covers (term_id_map self) idx ->
  tfidf_by_spec (term_id_map self) (doc_id_map self) idx query k
    (snd (retrieve_tfidf self idx query k))
  /\ (forall r, snd (retrieve_tfidf self idx query k) = Ok r ->
                Z.of_nat (length r) <= k /\ Sorted not_below r.*1).
Proof.
  intros Hk Hc.
  assert (Hsorted : forall r, snd (retrieve_tfidf self idx query k) = Ok r ->
                              Sorted not_below r.*1).
  { intros r. rewrite retrieve_tfidf_shape. apply ranked_top_sorted. }
  revert Hsorted. rewrite retrieve_tfidf_shape. unfold ranked_top. cbn [snd].
  pose proof (score_terms_known tfidf_postings (term_id_map self) idx
                (Z.of_nat (size (reader_doc_length idx)))
                (pre_processing_text query) Hc [] []) as Hs.
  rewrite app_nil_r in Hs. rewrite Hs, known_terms_spec.
  unfold tfidf_by_spec. intros Hsorted.
  destruct (spec_contributions _ _ _ _) as [contributions|e]; [|split; done].
  rewrite !bind_Ok in Hsorted |- *. rewrite slice_to_nonneg in Hsorted |- * by done.
  pose proof (resolve_docs_spec (doc_id_map self)
                (take (Z.to_nat k) (sorted_desc (accumulate [] contributions)))) as Hres.
  split.
  - exists (sorted_desc (accumulate [] contributions)).
    split; [apply ranked_by_spec_sorted_desc | exact Hres].
  - intros r Hr. split; [|by apply Hsorted].
    rewrite Hr in Hres. apply Forall2_length in Hres. rewrite Hres, length_take. lia.
Qed.

(** ** Terms that are not indexed *)


(** ** The identifier maps across a retrieval *)

Lemma score_terms_registers inner idx N m scores terms :
  exists new,
    fst (score_terms inner idx N m scores terms) = m ++ new
    /\ Forall (fun term => (term ∉ m) /\ (term ∈ terms)) new.
Proof.
  revert m scores. induction terms as [|term rest IH]; intros m scores.
  - exists []. split; [by rewrite app_nil_r | constructor].
  - cbn [score_terms].
    assert (Hstep : exists e, snd (IdMap.get_id m term) = m ++ e
                              /\ Forall (fun t => (t ∉ m) /\ (t ∈ term :: rest)) e).
    { destruct (IdMap_get_id_spec m term) as [(i & _ & ->)|[Hn ->]].
      - exists []. split; [by rewrite app_nil_r | constructor].
      - exists [term]. split; [reflexivity|]. repeat constructor.
        by apply IdMap_lookup_None. }
    destruct (IdMap.get_id m term) as [term_id m'].
    destruct Hstep as (e & He & Hnew). cbn [snd] in He. subst m'.
    assert (Hrest : forall scores',
               exists new, fst (score_terms inner idx N (m ++ e) scores' rest) = m ++ new
                           /\ Forall (fun t => (t ∉ m) /\ (t ∈ term :: rest)) new).
    { intros scores'. destruct (IH (m ++ e) scores') as (new & Hfst & Hall).
      exists (e ++ new). split; [by rewrite Hfst, app_assoc|].
      apply Forall_app. split; [done|].
      eapply Forall_impl; [exact Hall|]. simpl. intros t [Ht1 Ht2].
      split; [|by right]. intros Hin. apply Ht1, elem_of_app. by left. }
    destruct (get_postings_list idx term_id) as [postings_list tf_list].
    destruct (0 <? _); [|apply Hrest].
    destruct (math_log10 _); [|by exists e].
    destruct (inner _ _ _); [apply Hrest | by exists e].
Qed.



End RetrievalProofs.

(** ** The scorers on the collection of the examples *)

Lemma toy_covers : covers (term_id_map toy_self) toy_index.
Proof. unfold covers. simpl. repeat (constructor; try lia). Qed.

Lemma retrieve_bm25_is_tfidf_witness :
  @retrieve_bm25 example_externals toy_self toy_index "dog" 10 1.5 0.75
  = @retrieve_tfidf example_externals toy_self toy_index "dog" 10.
Proof.
  apply (@retrieve_bm25_is_tfidf example_externals toy_self toy_index "dog" 10 1.5 0.75).
  unfold tfs_positive. simpl. repeat (constructor; try lia).
Defined.

Lemma retrieve_tfidf_by_spec_witness :
  tfidf_by_spec (H := example_externals) (term_id_map toy_self) (doc_id_map toy_self)
    toy_index "fish" 10
    (snd (@retrieve_tfidf example_externals toy_self toy_index "fish" 10)).
Proof.
  destruct (@retrieve_tfidf_by_spec example_externals toy_self toy_index "fish" 10)
    as [Hspec _].
  - lia.
  - exact toy_covers.
  - exact Hspec.
Defined.

(** Two inputs the specified scoring does not cover.  With [k = -1] the
    slice drops the last document only and returns the other one, where
    the top [k] are no document at all.  With an index entry under an id
    the vocabulary has not assigned, the lookup of an unknown query term
    assigns that very id, and the term is scored, not skipped. *)
Lemma retrieve_tfidf_negative_k :
  (covers (term_id_map toy_self) toy_index
   /\ snd (@retrieve_tfidf example_externals toy_self toy_index "dog" (-1))
      = Ok [(0%float, "A")]
   /\ ~ tfidf_by_spec (H := example_externals) (term_id_map toy_self)
          (doc_id_map toy_self) toy_index "dog" (-1)
          (snd (@retrieve_tfidf example_externals toy_self toy_index "dog" (-1))))
  /\ (~ covers (term_id_map toy_self) stray_index
      /\ snd (@retrieve_tfidf example_externals toy_self stray_index "xyzzy" 10)
         = Ok [(0x1.34413509f79ffp-2%float, "A")]
      /\ ~ tfidf_by_spec (H := example_externals) (term_id_map toy_self)
             (doc_id_map toy_self) stray_index "xyzzy" 10
             (snd (@retrieve_tfidf example_externals toy_self stray_index "xyzzy" 10))).
Proof.
  split; (split; [|split]).
  - exact toy_covers.
  - vm_compute. reflexivity.
  - replace (snd (@retrieve_tfidf example_externals toy_self toy_index "dog" (-1)))
      with (@Ok (list (float * string)) [(0%float, "A")]) by (vm_compute; reflexivity).
    unfold tfidf_by_spec.
    destruct (spec_contributions _ _ _ _) as [contributions|e]; [|discriminate].
    intros (ranked & _ & Htop). unfold top_by_spec in Htop.
    change (Z.to_nat (-1)) with 0%nat in Htop. rewrite take_0 in Htop.
    inversion Htop.
  - unfold covers, stray_index. cbn. intros Hall. apply Forall_cons in Hall as [Hlt _].
    cbn in Hlt. lia.
  - vm_compute. reflexivity.
  - replace (snd (@retrieve_tfidf example_externals toy_self stray_index "xyzzy" 10))
      with (@Ok (list (float * string)) [(0x1.34413509f79ffp-2%float, "A")])
      by (vm_compute; reflexivity).
    unfold tfidf_by_spec.
    replace (spec_contributions (H := example_externals) (term_id_map toy_self) stray_index
               (Z.of_nat (size (reader_doc_length stray_index)))
               (@pre_processing_text example_externals "xyzzy"))
      with (@Ok (list (Z * float)) []) by (vm_compute; reflexivity).
    intros (ranked & (_ & Hkeys & _) & Htop). unfold top_by_spec in Htop.
    destruct ranked as [|[d s] ranked].
    + rewrite take_nil in Htop. inversion Htop.
    + specialize (Hkeys d). rewrite fmap_cons in Hkeys.
      destruct Hkeys as [Hkeys _]. specialize (Hkeys ltac:(left)).
      by apply elem_of_nil in Hkeys.
Qed.



Example retrieve_tfidf_xyzzy :
  @retrieve_tfidf example_externals toy_self toy_index "xyzzy" 10
  = (BSBI ["cat"; "dog"; "fish"; "xyzzy"] ["A"; "B"], Ok []).
Proof. vm_compute. reflexivity. Qed.

(** The scenario of the specification: "dog" is in both documents, so its
    idf is 0 and both documents score 0; "fish" is in B only. *)
Example retrieve_tfidf_dog :
  snd (@retrieve_tfidf example_externals toy_self toy_index "dog" 10)
  = Ok [(0%float, "A"); (0%float, "B")].
Proof. vm_compute. reflexivity. Qed.

Example retrieve_tfidf_fish :
  snd (@retrieve_tfidf example_externals toy_self toy_index "fish" 10)
  = Ok [(0x1.34413509f79ffp-2%float, "B")].
Proof. vm_compute. reflexivity. Qed.

(* ===================================================================== *)
(** * Further properties of the code *)
(* ===================================================================== *)

(** ** More on the array codec *)

Lemma byte_of_Z_of_byte (b : byte) : byte_of_Z (Z_of_byte b) = b.
Proof.
  unfold byte_of_Z, Z_of_byte. pose proof (Byte.to_N_bounded b).
  rewrite Z.mod_small by lia. rewrite N2Z.id, Byte.of_to_N. reflexivity.
Qed.

Lemma le_value_range (bs : list byte) :
  0 <= le_value bs < 2 ^ (8 * Z.of_nat (length bs)).
Proof.
  induction bs as [|b bs IH]; [simpl; lia|].
  cbn [le_value length]. pose proof (Z_of_byte_range b).
  replace (8 * Z.of_nat (S (length bs))) with (8 + 8 * Z.of_nat (length bs)) by lia.
  rewrite Z.pow_add_r by lia. change (2 ^ 8) with 256. nia.
Qed.

Lemma le_bytes_le_value (bs : list byte) : le_bytes (length bs) (le_value bs) = bs.
Proof.
  induction bs as [|b bs IH]; [reflexivity|].
  pose proof (Z_of_byte_range b).
  assert (Hm : (Z_of_byte b + 256 * le_value bs) mod 256 = Z_of_byte b).
  { rewrite (Z.mul_comm 256), Z.mod_add by lia. apply Z.mod_small. lia. }
  assert (Hd : (Z_of_byte b + 256 * le_value bs) / 256 = le_value bs).
  { rewrite (Z.mul_comm 256), Z.div_add by lia. rewrite Z.div_small by lia. lia. }
  change (le_bytes (length (b :: bs)) (le_value (b :: bs)))
    with (byte_of_Z ((Z_of_byte b + 256 * le_value bs) mod 256)
          :: le_bytes (length bs) ((Z_of_byte b + 256 * le_value bs) / 256)).
  rewrite Hm, Hd, IH, byte_of_Z_of_byte. reflexivity.
Qed.

Lemma item_value_range (p : platform) (bs : list byte) :
  length bs = itemsize p -> 0 <= item_value p bs < item_max p.
Proof.
  intros Hlen. unfold item_value, item_max. rewrite <- Hlen.
  destruct (order p); [apply le_value_range|].
  rewrite <- (length_reverse bs). apply le_value_range.
Qed.

Lemma item_bytes_item_value (p : platform) (bs : list byte) :
  length bs = itemsize p -> item_bytes p (item_value p bs) = bs.
Proof.
  intros Hlen. unfold item_value, item_bytes. rewrite <- Hlen.
  destruct (order p); [apply le_bytes_le_value|].
  rewrite <- (length_reverse bs), le_bytes_le_value. apply reverse_involutive.
Qed.

Lemma chunks_step (w n : nat) (bs : list byte) :
  bs <> [] -> chunks (S n) w bs = take w bs :: chunks n w (drop w bs).
Proof. by destruct bs. Qed.

Lemma chunks_spec (w n : nat) (bs : list byte) :
  (0 < w)%nat -> (length bs <= n)%nat -> (length bs mod w = 0)%nat ->
  concat (chunks n w bs) = bs
  /\ Forall (fun it => length it = w) (chunks n w bs)
  /\ (length (chunks n w bs) * w = length bs)%nat.
Proof.
  intros Hw. revert bs. induction n as [|n IH]; intros bs Hn Hmod.
  - destruct bs; [by repeat split | simpl in Hn; lia].
  - destruct (decide (bs = [])) as [->|Hne]; [by repeat split|].
    assert (Hpos : (0 < length bs)%nat) by (destruct bs; [done | simpl; lia]).
    assert (Hge : (w <= length bs)%nat).
    { destruct (Nat.lt_ge_cases (length bs) w) as [Hlt|]; [|done].
      rewrite Nat.mod_small in Hmod by done. lia. }
    assert (Hdrop : (length (drop w bs) mod w = 0)%nat).
    { rewrite length_drop.
      replace (length bs) with ((length bs - w) + 1 * w)%nat in Hmod by lia.
      by rewrite Nat.Div0.mod_add in Hmod. }
    destruct (IH (drop w bs)) as (IH1 & IH2 & IH3); [rewrite length_drop; lia | done |].
    rewrite chunks_step by done.
    cbn [concat length]. rewrite IH1, take_drop. split; [done|]. split.
    + constructor; [|done]. rewrite length_take. lia.
    + rewrite length_drop in IH3. lia.
Qed.

(** X1.  The fixed-width encoder fails exactly on an item that does not fit. *)
Theorem standard_encode_outcome (p : platform) (L : list Z) :
  (Forall (fun x => 0 <= x < item_max p) L
   /\ exists bs, StandardPostings.encode p L = Ok bs
                 /\ length bs = (itemsize p * length L)%nat)
  \/ (~ Forall (fun x => 0 <= x < item_max p) L
      /\ StandardPostings.encode p L = Raise OverflowError).
Proof.
  unfold StandardPostings.encode.
  destruct (decide (Forall (fun x => 0 <= x < item_max p) L)) as [Hall|Hn].
  - left. split; [done|]. rewrite array_L_Ok by done. eexists. split; [reflexivity|].
    apply length_tobytes.
  - right. split; [done|]. by rewrite array_L_Raise.
Qed.

(** X2.  Decoding any byte string whose length is a multiple of the item size
    succeeds, and encoding the result gives the bytes back. *)
Theorem standard_decode_outcome (p : platform) (bs : list byte) :
  ((length bs mod itemsize p)%nat <> 0%nat ->
   StandardPostings.decode p bs = Raise ValueError)
  /\ ((length bs mod itemsize p)%nat = 0%nat ->
      exists L, StandardPostings.decode p bs = Ok L
                /\ (length L * itemsize p = length bs)%nat
                /\ StandardPostings.encode p L = Ok bs).
Proof.
  unfold StandardPostings.decode, StandardPostings.encode, frombytes. split.
  - intros Hmod. destruct (Nat.eqb_spec (length bs mod itemsize p) 0); [done | reflexivity].
  - intros Hmod. rewrite Hmod. simpl (0 =? 0)%nat. cbv iota.
    destruct (chunks_spec (itemsize p) (length bs) bs (itemsize_pos p) ltac:(lia) Hmod)
      as (Hcat & Hlen & Hcount).
    eexists. split; [reflexivity|]. split; [by rewrite length_map|].
    rewrite array_L_Ok.
    + rewrite bind_Ok. f_equal. unfold tobytes. rewrite map_map.
      transitivity (concat (chunks (length bs) (itemsize p) bs)); [|exact Hcat].
      f_equal. transitivity (map id (chunks (length bs) (itemsize p) bs)); [|apply map_id].
      apply map_ext_Forall.
      eapply Forall_impl; [exact Hlen|]. intros it Hit. by apply item_bytes_item_value.
    + rewrite Forall_forall. intros x Hx%list_elem_of_In. apply in_map_iff in Hx as (it & <- & Hit).
      apply item_value_range. rewrite Forall_forall in Hlen. apply Hlen. by apply list_elem_of_In.
Qed.

(** ** More on the variable-byte codec *)

Section CodecMore.
Import VBEPostings.

Lemma digits_head (number : Z) :
  1 <= number ->
  exists d ds, vb_encode_loop number [] = d :: ds /\ 1 <= d.
Proof.
  intros Hn. assert (H0 : 0 <= number) by lia. revert Hn. revert number H0.
  apply (digits_ind (fun n l => 1 <= n -> exists d ds, l = d :: ds /\ 1 <= d)).
  - intros n Hn H1. by exists n, [].
  - intros n Hn IH _.
    destruct IH as (d & ds & -> & Hd); [apply Z.div_le_lower_bound; lia|].
    by exists d, (ds ++ [n mod 128]).
Qed.

(** X3.  The code of a natural number is self-delimiting and canonical: only
    the last byte has the high bit, the bytes are the base-128 digits of
    the number, most significant first, and there is no leading zero. *)
Theorem vb_encode_number_canonical (number : Z) :
  0 <= number ->
  exists ds d,
    vb_encode_number number = ds ++ [d + 128]
    /\ Forall (fun x => 0 <= x < 128) ds /\ 0 <= d < 128
    /\ horner 128 0 (ds ++ [d]) = number
    /\ length (ds ++ [d]) = base128_digits number
    /\ (forall d1 ds', ds = d1 :: ds' -> 1 <= d1).
Proof.
  intros Hn. pose proof (length_vb_encode_number number Hn) as Hlen.
  destruct (Z_lt_dec number 128) as [Hs|Hb].
  - exists [], number. rewrite vb_encode_number_small, Z.mod_small in * by lia.
    repeat split; try done; try lia; try (unfold horner; simpl; lia).
  - exists (vb_encode_loop (number / 128) []), (number mod 128).
    rewrite vb_encode_number_big in * by lia.
    pose proof (Z.mod_pos_bound number 128 ltac:(lia)).
    assert (Hq : 1 <= number / 128) by (apply Z.div_le_lower_bound; lia).
    split; [done|]. split; [apply digits_range; lia|]. split; [lia|]. split.
    + rewrite horner_snoc, horner_digits by lia. pose proof (Z.div_mod number 128). lia.
    + split.
      * rewrite length_app in *. exact Hlen.
      * intros d1 ds' Heq. destruct (digits_head _ Hq) as (d & ds & Hd & Hd1).
        rewrite Hd in Heq. by injection Heq as <- _.
Qed.

Lemma vb_encode_number_canonical_witness :
  exists ds d, vb_encode_number 2345738 = ds ++ [d + 128] /\ 0 <= d < 128.
Proof.
  destruct (vb_encode_number_canonical 2345738) as (ds & d & H1 & _ & H2 & _); [lia|].
  by exists ds, d.
Defined.

Lemma vb_decode_from_unterminated (n : Z) (ds : list Z) :
  Forall (fun d => d < 128) ds -> vb_decode_from n ds = [].
Proof.
  intros Hds. revert n. induction Hds as [|d ds Hd _ IH]; intros n; [reflexivity|].
  cbn [vb_decode_from]. destruct (d <? 128) eqn:E; [apply IH | lia].
Qed.

(** X4.  Bytes after the last terminator are dropped without an error. *)
Theorem vb_decode_drops_unterminated_tail (l ds : list Z) :
  Forall (fun x => 0 <= x) l -> Forall (fun d => d < 128) ds ->
  vb_decode (concat (map vb_encode_number l) ++ ds) = l.
Proof.
  intros Hl Hds. unfold vb_decode.
  induction Hl as [|x l Hx _ IH].
  - simpl. by apply vb_decode_from_unterminated.
  - cbn [map concat]. rewrite <- app_assoc, vb_decode_from_number by done. by rewrite IH.
Qed.

Lemma vb_decode_drops_unterminated_tail_witness :
  vb_decode (concat (map vb_encode_number [5; 300]) ++ [1; 2]) = [5; 300].
Proof.
  apply (vb_decode_drops_unterminated_tail [5; 300] [1; 2]); repeat constructor; lia.
Defined.

Lemma length_vb_encode_number_any (number : Z) :
  length (vb_encode_number number) = base128_digits number
  /\ Forall (fun d => 0 <= d < 256) (vb_encode_number number).
Proof.
  destruct (Z_lt_dec number 0) as [Hneg|Hpos].
  - rewrite vb_encode_number_small by lia. split.
    + unfold base128_digits. destruct number; try lia. reflexivity.
    + pose proof (Z.mod_pos_bound number 128 ltac:(lia)). repeat constructor; lia.
  - split; [apply length_vb_encode_number | apply vb_encode_number_range]; lia.
Qed.

(** X5.  The variable-byte encoder never raises, negative numbers included, and
    spends one array item per digit. *)
Theorem vb_encode_total (p : platform) (l : list Z) :
  exists bs,
    vb_encode p l = Ok bs
    /\ length bs = (itemsize p * total_digits l)%nat
    /\ (forall n, n < 0 -> vb_encode_number n = [n mod 128 + 128]).
Proof.
  assert (Hrange : Forall (fun d => 0 <= d < item_max p) (concat (map vb_encode_number l))).
  { induction l as [|x l IH]; [constructor|]. cbn [map concat]. apply Forall_app.
    split; [|done]. destruct (length_vb_encode_number_any x) as [_ Hx].
    eapply Forall_impl; [exact Hx|]. simpl. intros d Hd.
    split; [lia | apply byte_lt_item_max; lia]. }
  unfold vb_encode. rewrite array_L_Ok by done. eexists. split; [reflexivity|]. split.
  - rewrite length_tobytes. f_equal. unfold total_digits. clear Hrange.
    induction l as [|x l IH]; [reflexivity|].
    cbn [map concat]. rewrite length_app, IH.
    destruct (length_vb_encode_number_any x) as [-> _]. reflexivity.
  - intros n Hn. apply vb_encode_number_small. lia.
Qed.

Lemma length_vb_decode_from (n : Z) (items : list Z) :
  (length (vb_decode_from n items) <= length items)%nat.
Proof.
  revert n. induction items as [|x items IH]; intros n; [reflexivity|].
  cbn [vb_decode_from]. destruct (x <? 128).
  - specialize (IH (128 * n + x)). simpl. lia.
  - specialize (IH 0). simpl. lia.
Qed.

(** X6.  The gap decoder raises exactly on a length that is not a multiple of
    the item size; otherwise it returns at most one id per item. *)
Theorem vbe_decode_outcome (p : platform) (bs : list byte) :
  ((length bs mod itemsize p)%nat <> 0%nat ->
   VBEPostings.decode p bs = Raise ValueError)
  /\ ((length bs mod itemsize p)%nat = 0%nat ->
      exists L, VBEPostings.decode p bs = Ok L
                /\ (length L * itemsize p <= length bs)%nat).
Proof.
  unfold decode, frombytes. split.
  - intros Hmod. destruct (Nat.eqb_spec (length bs mod itemsize p) 0); [done | reflexivity].
  - intros Hmod. rewrite Hmod. simpl (0 =? 0)%nat. cbv iota. rewrite bind_Ok.
    eexists. split; [reflexivity|].
    destruct (chunks_spec (itemsize p) (length bs) bs (itemsize_pos p) ltac:(lia) Hmod)
      as (_ & _ & Hcount).
    unfold np_cumsum, vb_decode.
    assert (Hcs : forall t a l, length (np_cumsum_from t a l) = length l).
    { intros t a l. revert a. induction l as [|x l IH]; intros a; [reflexivity|].
      simpl. by rewrite IH. }
    rewrite Hcs.
    pose proof (length_vb_decode_from 0 (map (item_value p) (chunks (length bs) (itemsize p) bs))) as Hle.
    rewrite length_map in Hle. pose proof (itemsize_pos p). nia.
Qed.

End CodecMore.

(** ** The block parser *)

Lemma IdMap_get_str_app (m e : IdMap.t) (i : Z) (s : string) :
  IdMap.get_str m i = Ok s -> IdMap.get_str (m ++ e) i = Ok s.
Proof.
  unfold IdMap.get_str. destruct (i <? 0); [done|].
  destruct (m !! Z.to_nat i) as [s'|] eqn:E; [|done].
  intros [= <-]. unfold IdMap.t in *. by rewrite (lookup_app_l_Some _ _ _ _ E).
Qed.

Lemma IdMap_get_id_get_str (m : IdMap.t) (s : string) :
  exists e, snd (IdMap.get_id m s) = m ++ e
            /\ IdMap.get_str (m ++ e) (fst (IdMap.get_id m s)) = Ok s.
Proof.
  unfold IdMap.get_id. destruct (IdMap.lookup m s) as [i|] eqn:E.
  - exists []. rewrite app_nil_r. split; [done|]. cbn [fst].
    unfold IdMap.lookup in E. destruct (list_find _ m) as [[j x]|] eqn:Hf; [|done].
    injection E as <-. apply list_find_Some in Hf as (Hj & -> & _). cbn [fst].
    unfold IdMap.get_str. destruct (Z.ltb_spec (Z.of_nat j) 0); [lia|].
    rewrite Nat2Z.id. unfold IdMap.t in *. by rewrite Hj.
  - exists [s]. split; [done|]. cbn [fst]. unfold IdMap.get_str.
    destruct (Z.ltb_spec (Z.of_nat (length m)) 0); [lia|].
    rewrite Nat2Z.id. unfold IdMap.t in *.
    rewrite lookup_app_r, Nat.sub_diag by lia. reflexivity.
Qed.

Lemma parse_terms_spec (terms : list string) (m : IdMap.t) (doc_id : Z)
    (td_pairs : list (Z * Z)) :
  exists e ids,
    parse_terms m doc_id td_pairs terms
    = (m ++ e, td_pairs ++ ((fun i => (i, doc_id)) <$> ids))
    /\ IdMap.get_str (m ++ e) <$> ids = Ok <$> terms.
Proof.
  revert m td_pairs. induction terms as [|term rest IH]; intros m td_pairs.
  - exists [], []. by rewrite !app_nil_r.
  - cbn [parse_terms]. destruct (IdMap_get_id_get_str m term) as (e1 & He1 & Hstr).
    destruct (IdMap.get_id m term) as [term_id m1]. cbn [fst snd] in *. subst m1.
    destruct (IH (m ++ e1) (td_pairs ++ [(term_id, doc_id)])) as (e2 & ids & -> & Hids).
    exists (e1 ++ e2), (term_id :: ids). split.
    + rewrite fmap_cons. f_equal; [symmetry; apply app_assoc|]. by rewrite <- app_assoc.
    + rewrite (app_assoc m), !fmap_cons, Hids. f_equal. by apply IdMap_get_str_app.
Qed.

Section Parsing.
Context `{externals}.

Lemma parse_files_spec (files : list (string * string)) (self : BSBIIndex)
    (td_pairs : list (Z * Z)) (tokens : list (string * string)) :
  resolve_pair self <$> td_pairs = (fun '(term, path) => (Ok term, Ok path)) <$> tokens ->
  exists new_terms new_docs td',
    parse_files self td_pairs files
    = (BSBI (term_id_map self ++ new_terms) (doc_id_map self ++ new_docs), td')
    /\ resolve_pair (BSBI (term_id_map self ++ new_terms) (doc_id_map self ++ new_docs))
         <$> td'
       = (fun '(term, path) => (Ok term, Ok path)) <$> (tokens ++ block_tokens files).
Proof.
  revert self td_pairs tokens.
  induction files as [|[path doc] rest IH]; intros self td_pairs tokens Hres.
  - exists [], [], td_pairs. rewrite !app_nil_r. by destruct self.
  - cbn [parse_files].
    destruct (IdMap_get_id_get_str (doc_id_map self) path) as (ed & Hed & Hdoc).
    destruct (IdMap.get_id (doc_id_map self) path) as [doc_id dm]. cbn [fst snd] in *.
    subst dm.
    destruct (parse_terms_spec (pre_processing_text doc) (term_id_map self) doc_id td_pairs)
      as (et & ids & -> & Hids).
    edestruct (IH (BSBI (term_id_map self ++ et) (doc_id_map self ++ ed))
                 (td_pairs ++ ((fun i => (i, doc_id)) <$> ids))
                 (tokens ++ ((fun term => (term, path)) <$> pre_processing_text doc)))
      as (nt & nd & td' & -> & Hres').
    { rewrite !fmap_app. f_equal.
      - clear -Hres. revert tokens Hres.
        induction td_pairs as [|[t d] td IHtd]; intros [|[term p] tokens] Hres;
          try done.
        rewrite !fmap_cons in Hres |- *. injection Hres as Ht Hd Hrest.
        f_equal; [|by apply IHtd].
        unfold resolve_pair in *. cbn [fst snd term_id_map doc_id_map] in *.
        f_equal; by apply IdMap_get_str_app.
      - clear -Hids Hdoc. revert ids Hids.
        induction (pre_processing_text doc) as [|term terms IHt]; intros [|i ids] Hids;
          try done.
        rewrite !fmap_cons. rewrite (fmap_cons _ i), (fmap_cons _ term) in Hids.
        injection Hids as Hi Hrest.
        f_equal; [|by apply IHt].
        unfold resolve_pair. cbn [fst snd term_id_map doc_id_map]. by rewrite Hi, Hdoc. }
    cbn [term_id_map doc_id_map] in *.
    exists (et ++ nt), (ed ++ nd), td'. rewrite !app_assoc. split; [done|].
    rewrite Hres'. unfold block_tokens. rewrite fmap_cons. cbn [concat].
    by rewrite <- !app_assoc.
Qed.

(** X7.  [parsing_block] only extends the two maps, and with the maps it leaves
    every pair reads back as the token and the path it was made from: the
    pairs are the token stream of the block, in reading order. *)
Theorem parsing_block_resolves (self : BSBIIndex) (files : list (string * string)) :
  exists new_terms new_docs td_pairs,
    parsing_block self files
    = (BSBI (term_id_map self ++ new_terms) (doc_id_map self ++ new_docs), td_pairs)
    /\ resolve_pair (BSBI (term_id_map self ++ new_terms) (doc_id_map self ++ new_docs))
         <$> td_pairs
       = (fun '(term, path) => (Ok term, Ok path)) <$> block_tokens files.
Proof.
  destruct (parse_files_spec files self [] []) as (nt & nd & td & Heq & Hres); [done|].
  exists nt, nd, td. split; [exact Heq | exact Hres].
Qed.

End Parsing.

Example parsing_block_two_files :
  @parsing_block example_externals (BSBI [] []) [("A", "dog"); ("B", "fish"); ("C", "dog")]
  = (BSBI ["dog"; "fish"] ["A"; "B"; "C"], [(0, 0); (1, 1); (0, 2)]).
Proof. vm_compute. reflexivity. Qed.

(** ** More on block inversion *)

Lemma count_pair_comm (m : gmap Z (gmap Z Z)) (x y : Z * Z) :
  count_pair (count_pair m x) y = count_pair (count_pair m y) x.
Proof.
  destruct x as [t1 d1], y as [t2 d2]. unfold count_pair.
  destruct (decide (t1 = t2)) as [->|Ht].
  - rewrite !lookup_insert_eq. cbn [default from_option id]. rewrite !insert_insert_eq. f_equal.
    destruct (decide (d1 = d2)) as [->|Hd]; [reflexivity|].
    rewrite !lookup_insert_ne by done. by rewrite insert_insert_ne.
  - rewrite !lookup_insert_ne by done. by rewrite insert_insert_ne.
Qed.

Lemma fold_count_pair_Permutation (l1 l2 : list (Z * Z)) (m : gmap Z (gmap Z Z)) :
  l1 ≡ₚ l2 -> fold_left count_pair l1 m = fold_left count_pair l2 m.
Proof.
  intros Hp. revert m. induction Hp as [|x l1 l2 _ IH|x y l|l1 l2 l3 _ IH1 _ IH2]; intros m.
  - reflexivity.
  - cbn [fold_left]. apply IH.
  - cbn [fold_left]. by rewrite count_pair_comm.
  - by rewrite IH1.
Qed.

(** X8.  The index written for a block does not depend on the order of the pairs. *)
Theorem write_to_index_Permutation (td_pairs1 td_pairs2 : list (Z * Z))
    (index : InvertedIndexWriter) :
  td_pairs1 ≡ₚ td_pairs2 ->
  write_to_index td_pairs1 index = write_to_index td_pairs2 index.
Proof.
  intros Hp. unfold write_to_index. by rewrite (fold_count_pair_Permutation _ _ ∅ Hp).
Qed.

Lemma write_to_index_Permutation_witness :
  write_to_index [(1, 7); (0, 3); (1, 7)] new_writer
  = write_to_index [(0, 3); (1, 7); (1, 7)] new_writer.
Proof.
  apply (write_to_index_Permutation [(1, 7); (0, 3); (1, 7)] [(0, 3); (1, 7); (1, 7)]).
  apply perm_swap.
Defined.

Lemma occurrences_cons (t d : Z) (x : Z * Z) (l : list (Z * Z)) :
  occurrences t d (x :: l)
  = (if decide (x = (t, d)) then 1 else 0) + occurrences t d l.
Proof.
  unfold occurrences. rewrite filter_cons.
  destruct (decide (x = (t, d))); simpl; lia.
Qed.

Lemma sum_Z_cons (x : Z) (l : list Z) : sum_Z (x :: l) = x + sum_Z l.
Proof. reflexivity. Qed.

Lemma sum_Z_app (l1 l2 : list Z) : sum_Z (l1 ++ l2) = sum_Z l1 + sum_Z l2.
Proof. unfold sum_Z. induction l1 as [|x l1 IH]; simpl; lia. Qed.

Lemma sum_indicator (x : Z * Z) (ks : list (Z * Z)) :
  NoDup ks ->
  sum_Z ((fun k => if decide (x = k) then 1 else 0) <$> ks)
  = if decide (x ∈ ks) then 1 else 0.
Proof.
  induction 1 as [|k ks Hk Hnd IH]; [reflexivity|].
  rewrite fmap_cons, sum_Z_cons, IH. destruct (decide (x = k)) as [->|Hne].
  - rewrite decide_False by done. rewrite decide_True by left. lia.
  - destruct (decide (x ∈ ks)).
    + rewrite decide_True by (by right). lia.
    + rewrite decide_False; [lia|]. intros [?|?]%elem_of_cons; done.
Qed.

(** Counting the occurrences of every pair of a duplicate-free list that
    covers [l] counts every element of [l] once. *)
Lemma sum_occurrences (ks l : list (Z * Z)) :
  NoDup ks -> (forall x, x ∈ l -> x ∈ ks) ->
  sum_Z ((fun k => occurrences k.1 k.2 l) <$> ks) = Z.of_nat (length l).
Proof.
  intros Hnd. induction l as [|x l IH]; intros Hin.
  - clear Hnd Hin. induction ks as [|k ks IHks]; [reflexivity|].
    rewrite fmap_cons, sum_Z_cons, IHks. reflexivity.
  - assert (Heq : (fun k : Z * Z => occurrences k.1 k.2 (x :: l)) <$> ks
                  = (fun k => (if decide (x = k) then 1 else 0) + occurrences k.1 k.2 l) <$> ks).
    { apply list_fmap_ext. intros i [t d] _. apply occurrences_cons. }
    rewrite Heq.
    assert (Hsplit : forall (f g : Z * Z -> Z) (ks : list (Z * Z)),
               sum_Z ((fun k => f k + g k) <$> ks) = sum_Z (f <$> ks) + sum_Z (g <$> ks)).
    { intros f g ks'. induction ks' as [|k ks' IH']; [reflexivity|].
      rewrite !fmap_cons, !sum_Z_cons, IH'. lia. }
    rewrite Hsplit, sum_indicator by done.
    rewrite decide_True by (apply Hin; left).
    rewrite IH by (intros y Hy; apply Hin; by right).
    cbn [length]. lia.
Qed.

Lemma elem_of_concat {A : Type} (x : A) (ls : list (list A)) :
  x ∈ concat ls <-> exists l, x ∈ l /\ l ∈ ls.
Proof.
  induction ls as [|l ls IH]; cbn [concat].
  - split; [by intros ?%elem_of_nil | by intros (l & _ & ?%elem_of_nil)].
  - rewrite elem_of_app, IH. split.
    + intros [Hx|(l' & Hx & Hl')]; [exists l; split; [done | left] |].
      exists l'. split; [done | by right].
    + intros (l' & Hx & [->|Hl']%elem_of_cons); [by left | right; eauto].
Qed.

Lemma StronglySorted_lt_NoDup (l : list Z) : StronglySorted Z.lt l -> NoDup l.
Proof.
  induction 1 as [|x l _ IH Hall]; constructor; [|done].
  intros Hx. rewrite Forall_forall in Hall. specialize (Hall x Hx). lia.
Qed.

Lemma NoDup_tagged (ks : list Z) (g : Z -> list Z) :
  NoDup ks -> (forall t, NoDup (g t)) ->
  NoDup (concat ((fun t => (fun d => (t, d)) <$> g t) <$> ks)).
Proof.
  intros Hnd Hg. induction Hnd as [|t ks Ht Hnd IH]; [constructor|].
  rewrite fmap_cons. cbn [concat]. apply NoDup_app. split; [|split; [|exact IH]].
  - apply NoDup_fmap; [|apply Hg]. intros d1 d2 [=]. done.
  - intros [t' d] [d' [[= -> ->] Hd]]%list_elem_of_fmap Hin.
    apply elem_of_concat in Hin as (l' & Hin & Hl').
    apply list_elem_of_fmap in Hl' as (t'' & -> & Ht'').
    apply list_elem_of_fmap in Hin as (d'' & [= <- <-] & _). done.
Qed.

(** X9.  Every pair is counted once: the term frequencies written for a block
    add up to the number of pairs. *)
Theorem write_to_index_counts_every_pair (td_pairs : list (Z * Z))
    (index : InvertedIndexWriter) :
  exists out,
    appended (write_to_index td_pairs index) = appended index ++ out
    /\ sum_Z (concat (tfs_of <$> out)) = Z.of_nat (length td_pairs).
Proof.
  unfold write_to_index.
  destruct (term_dict_spec td_pairs) as [Hlook Hdom].
  set (term_dict := fold_left count_pair td_pairs ∅) in *.
  exists (term_entry term_dict <$> sorted_keys term_dict).
  split; [apply appended_fold_append_term|].
  set (docs_of := fun t => sorted_keys (default ∅ (term_dict !! t))).
  set (ks := concat ((fun t => (fun d => (t, d)) <$> docs_of t) <$> sorted_keys term_dict)).
  assert (Hsum : concat (tfs_of <$> (term_entry term_dict <$> sorted_keys term_dict))
                 = (fun k => occurrences k.1 k.2 td_pairs) <$> ks).
  { unfold ks. generalize (sorted_keys term_dict). intros l.
    induction l as [|t l IH]; [reflexivity|].
    rewrite !fmap_cons. cbn [concat]. rewrite fmap_app, IH. f_equal.
    unfold term_entry, tfs_of, docs_of. cbn [snd].
    rewrite <- list_fmap_compose. apply list_fmap_ext. intros i d _. cbn.
    fold (term_dict_lookup term_dict t d). rewrite Hlook.
    destruct (decide (occurrences t d td_pairs = 0)) as [->|]; reflexivity. }
  rewrite Hsum. apply sum_occurrences.
  - apply NoDup_tagged.
    + apply StronglySorted_lt_NoDup, sorted_keys_sorted.
    + intros t. apply StronglySorted_lt_NoDup, sorted_keys_sorted.
  - intros [t d] Hin. unfold ks. apply elem_of_concat.
    exists ((fun d => (t, d)) <$> docs_of t). split.
    + apply list_elem_of_fmap. exists d. split; [done|].
      unfold docs_of. apply sorted_keys_elem_of.
      fold (term_dict_lookup term_dict t d). rewrite Hlook.
      apply occurrences_pos in Hin.
      destruct (decide (occurrences t d td_pairs = 0)); [lia | eauto].
    + apply list_elem_of_fmap. exists t. split; [done|].
      apply sorted_keys_elem_of, Hdom. eauto.
Qed.

(** ** The merge of any number of readers *)

Lemma select_min_None (its : list (list triple)) :
  select_min its = None <-> concat its = [].
Proof.
  induction its as [|it its IH]; [done|].
  cbn [select_min concat]. destruct it as [|x it'], (select_min its) as [[y rest']|].
  - split; [done|]. intros Hc. simpl in Hc. apply IH in Hc. done.
  - simpl. by rewrite <- IH.
  - split; [by destruct (termId x <=? termId y) | done].
  - done.
Qed.

Lemma select_min_Some (its its' : list (list triple)) (x : triple) :
  select_min its = Some (x, its') ->
  concat its ≡ₚ x :: concat its'
  /\ (Forall nondecreasing its ->
      Forall nondecreasing its'
      /\ Forall (fun y => termId x <= termId y) (concat its')).
Proof.
  revert its' x. induction its as [|it its IH]; intros its' x; [done|].
  cbn [select_min]. destruct (select_min its) as [[y rest']|] eqn:Hmin.
  - destruct (IH rest' y eq_refl) as [Hperm Hsorted].
    destruct it as [|a it'].
    + intros [= <- <-]. cbn [concat app]. split; [done|].
      intros [_ Hs]%Forall_cons. destruct (Hsorted Hs) as [Hs' Hle].
      split; [constructor; [constructor | done] | done].
    + destruct (termId a <=? termId y) eqn:E; intros [= <- <-].
      * cbn [concat]. split; [done|].
        intros [Ha Hs]%Forall_cons. apply StronglySorted_inv in Ha as [Ha Hal].
        split; [by constructor|]. apply Forall_app. split; [done|].
        destruct (Hsorted Hs) as [_ Hle]. rewrite Hperm. constructor; [lia|].
        eapply Forall_impl; [exact Hle|]. simpl. intros; lia.
      * cbn [concat]. split.
        { rewrite Hperm. by rewrite (Permutation_middle (a :: it') (concat rest') y). }
        intros [Ha Hs]%Forall_cons. destruct (Hsorted Hs) as [Hs' Hle].
        split; [by constructor|]. apply Forall_app. split; [|done].
        pose proof Ha as [_ Hal]%StronglySorted_inv.
        constructor; [lia|]. eapply Forall_impl; [exact Hal|]. simpl. intros; lia.
  - apply select_min_None in Hmin. destruct it as [|a it']; [done|].
    intros [= <- <-]. cbn [concat]. rewrite Hmin, !app_nil_r. split; [done|].
    intros [Ha Hs]%Forall_cons. apply StronglySorted_inv in Ha as [Ha Hal].
    split; [by constructor | done].
Qed.

Lemma heapq_merge_steps_spec (n : nat) (its : list (list triple)) :
  (length (concat its) <= n)%nat ->
  heapq_merge_steps n its ≡ₚ concat its
  /\ (Forall nondecreasing its -> nondecreasing (heapq_merge_steps n its)).
Proof.
  revert its. induction n as [|n IH]; intros its Hn.
  - destruct (concat its); [|simpl in Hn; lia]. split; [done | constructor].
  - cbn [heapq_merge_steps]. destruct (select_min its) as [[x its']|] eqn:Hmin.
    + destruct (select_min_Some _ _ _ Hmin) as [Hperm Hsorted].
      destruct (IH its') as [IHp IHs].
      { rewrite Hperm in Hn. simpl in Hn. lia. }
      split; [by rewrite Hperm, IHp|].
      intros Hall. destruct (Hsorted Hall) as [Hs' Hle].
      constructor; [by apply IHs|]. by rewrite IHp.
    + apply select_min_None in Hmin. rewrite Hmin. split; [done | constructor].
Qed.

Lemma heapq_merge_spec (its : list (list triple)) :
  heapq_merge its ≡ₚ concat its
  /\ (Forall nondecreasing its -> nondecreasing (heapq_merge its)).
Proof. unfold heapq_merge. by apply heapq_merge_steps_spec. Qed.

Lemma ascending_nondecreasing (l : list triple) : ascending l -> nondecreasing l.
Proof.
  unfold ascending, nondecreasing. induction l as [|x l IH]; [constructor|].
  rewrite fmap_cons. intros [Hs Hall]%StronglySorted_inv. constructor; [by apply IH|].
  rewrite Forall_fmap in Hall. eapply Forall_impl; [exact Hall|]. simpl. intros; lia.
Qed.

Lemma grouped_nondecreasing (stream : list triple) (acc : triple) :
  nondecreasing stream -> Forall (fun y => termId acc <= termId y) stream ->
  StronglySorted Z.lt (termId <$> grouped acc stream)
  /\ Forall (fun t => termId acc <= t) (termId <$> grouped acc stream)
  /\ (forall t, t ∈ termId <$> grouped acc stream
                <-> t = termId acc \/ t ∈ termId <$> stream).
Proof.
  revert acc. induction stream as [|item rest IH]; intros acc Hs Hle.
  - cbn [grouped]. split; [repeat constructor|]. split; [repeat constructor; lia|].
    intros t. rewrite !fmap_cons, fmap_nil, list_elem_of_singleton, elem_of_nil. tauto.
  - apply StronglySorted_inv in Hs as [Hs Hitem]. apply Forall_cons in Hle as [Hle1 Hle].
    cbn [grouped]. destruct (termId item =? termId acc) eqn:E.
    + destruct (IH (merge_entries acc item) Hs) as (IH1 & IH2 & IH3).
      { by rewrite termId_merge_entries. }
      rewrite termId_merge_entries in *. split; [done|]. split; [done|].
      intros t. rewrite IH3, fmap_cons, elem_of_cons.
      assert (termId item = termId acc) by lia. intuition congruence.
    + destruct (IH item Hs Hitem) as (IH1 & IH2 & IH3).
      rewrite fmap_cons. split; [|split].
      * constructor; [done|]. eapply Forall_impl; [exact IH2|]. simpl. intros; lia.
      * constructor; [lia|]. eapply Forall_impl; [exact IH2|]. simpl. intros; lia.
      * intros t. rewrite elem_of_cons, IH3, fmap_cons, elem_of_cons. tauto.
Qed.

Lemma grouped_stream_heapq_merge (its : list (list triple)) :
  Forall ascending its ->
  StronglySorted Z.lt (termId <$> grouped_stream (heapq_merge its))
  /\ (forall t, t ∈ termId <$> grouped_stream (heapq_merge its)
                <-> exists it, it ∈ its /\ t ∈ termId <$> it).
Proof.
  intros Hasc. destruct (heapq_merge_spec its) as [Hperm Hsorted].
  assert (Hnd : nondecreasing (heapq_merge its)).
  { apply Hsorted. eapply Forall_impl; [exact Hasc|]. apply ascending_nondecreasing. }
  assert (Hids : forall t, t ∈ termId <$> heapq_merge its
                           <-> exists it, it ∈ its /\ t ∈ termId <$> it).
  { intros t. rewrite Hperm. rewrite list_elem_of_fmap. split.
    - intros (x & -> & (l & Hx & Hl)%elem_of_concat).
      exists l. split; [done|]. apply list_elem_of_fmap. eauto.
    - intros (l & Hl & (x & -> & Hx)%list_elem_of_fmap).
      exists x. split; [done|]. apply elem_of_concat. eauto. }
  destruct (heapq_merge its) as [|first rest].
  - split; [constructor|]. intros t. rewrite <- Hids. done.
  - cbn [grouped_stream]. apply StronglySorted_inv in Hnd as [Hnd Hfirst].
    destruct (grouped_nondecreasing rest first Hnd Hfirst) as (H1 & _ & H3).
    split; [done|]. intros t. rewrite H3, <- Hids, fmap_cons, elem_of_cons. tauto.
Qed.

(** X10.  For any number of readers with ascending term ids, the merged index has
    one entry per distinct term id of the readers, in ascending order. *)
Theorem merge_index_many (indices : list InvertedIndexReader)
    (merged_index : InvertedIndexWriter) :
  Forall (fun r => ascending (triples r)) indices ->
  exists out,
    appended (fst (merge_index indices merged_index)) = appended merged_index ++ out
    /\ StronglySorted Z.lt (termId <$> out)
    /\ (forall t, t ∈ termId <$> out
                  <-> exists r, r ∈ indices /\ t ∈ termId <$> triples r).
Proof.
  intros Hasc. eexists. split; [apply merge_index_appended|].
  destruct (grouped_stream_heapq_merge (triples <$> indices)) as [H1 H2].
  { by rewrite Forall_fmap. }
  split; [done|]. intros t. rewrite H2. split.
  - intros (it & (r & -> & Hr)%list_elem_of_fmap & Ht). eauto.
  - intros (r & Hr & Ht). exists (triples r). split; [|done].
    apply list_elem_of_fmap. eauto.
Qed.

Lemma merge_index_many_witness :
  exists out,
    appended (fst (merge_index [block_a; block_b; block_a] new_writer))
    = appended new_writer ++ out
    /\ StronglySorted Z.lt (termId <$> out).
Proof.
  destruct (merge_index_many [block_a; block_b; block_a] new_writer)
    as (out & H1 & H2 & _).
  - repeat constructor; unfold ascending; simpl; repeat (constructor; try lia).
  - by exists out.
Defined.


Lemma heapq_merge_single (l : list triple) : heapq_merge [l] = l.
Proof.
  unfold heapq_merge. cbn [concat]. rewrite app_nil_r.
  induction l as [|x l IH]; [reflexivity|].
  cbn [length heapq_merge_steps select_min]. by rewrite IH.
Qed.

(** X12.  Merging a single reader copies its entries. *)
Theorem merge_index_single (r : InvertedIndexReader) (merged_index : InvertedIndexWriter) :
  ascending (triples r) ->
  appended (fst (merge_index [r] merged_index)) = appended merged_index ++ triples r.
Proof.
  intros Hasc. rewrite merge_index_appended. cbn [fmap list_fmap].
  by rewrite heapq_merge_single, grouped_stream_ascending.
Qed.

Lemma merge_index_single_witness :
  appended (fst (merge_index [block_a] new_writer)) = triples block_a.
Proof.
  apply (merge_index_single block_a new_writer).
  unfold ascending. simpl. repeat (constructor; try lia).
Defined.

(** ** The whole indexing run *)

Lemma termId_term_entry (term_dict : gmap Z (gmap Z Z)) (ks : list Z) :
  termId <$> (term_entry term_dict <$> ks) = ks.
Proof. induction ks as [|k ks IH]; [done|]. rewrite !fmap_cons, IH. done. Qed.

Lemma write_to_index_termIds (td_pairs : list (Z * Z)) :
  ascending (appended (write_to_index td_pairs new_writer))
  /\ (forall t, t ∈ termId <$> appended (write_to_index td_pairs new_writer)
                <-> exists d, (t, d) ∈ td_pairs).
Proof.
  unfold write_to_index, ascending. rewrite appended_fold_append_term.
  cbn [appended new_writer app]. rewrite termId_term_entry.
  split; [apply sorted_keys_sorted|].
  intros t. rewrite sorted_keys_elem_of.
  by destruct (term_dict_spec td_pairs) as [_ ->].
Qed.

Lemma fmap_eq_elem_of {A B C : Type} (g : A -> C) (h : B -> C) (l1 : list A) (l2 : list B) :
  g <$> l1 = h <$> l2 ->
  (forall x, x ∈ l1 -> exists y, y ∈ l2 /\ g x = h y)
  /\ (forall y, y ∈ l2 -> exists x, x ∈ l1 /\ g x = h y).
Proof.
  intros Heq. split.
  - intros x Hx. assert (Hg : g x ∈ h <$> l2) by (rewrite <- Heq; by apply list_elem_of_fmap_2).
    apply list_elem_of_fmap in Hg as (y & ? & ?). eauto.
  - intros y Hy. assert (Hh : h y ∈ g <$> l1) by (rewrite Heq; by apply list_elem_of_fmap_2).
    apply list_elem_of_fmap in Hh as (x & ? & ?). eauto.
Qed.

Section Indexing.
Context `{externals}.

Lemma index_blocks_spec (blocks : list (list (string * string))) (self : BSBIIndex) :
  exists new_terms new_docs indices,
    index_blocks self blocks
    = (BSBI (term_id_map self ++ new_terms) (doc_id_map self ++ new_docs), indices)
    /\ Forall (fun index => ascending (appended index)) indices
    /\ (forall t, (exists index, index ∈ indices /\ t ∈ termId <$> appended index) ->
                  exists term, names_token (term_id_map self ++ new_terms) blocks t term)
    /\ (forall files term path,
          files ∈ blocks -> (term, path) ∈ block_tokens files ->
          exists t index, index ∈ indices /\ t ∈ termId <$> appended index
                          /\ IdMap.get_str (term_id_map self ++ new_terms) t = Ok term)
    /\ ((exists index, index ∈ indices /\ appended index <> [])
        <-> exists files, files ∈ blocks /\ block_tokens files <> []).
Proof.
  revert self. induction blocks as [|files rest IH]; intros self.
  - exists [], [], []. rewrite !app_nil_r. cbn [index_blocks].
    split; [by destruct self|]. split; [constructor|].
    split; [intros t (i & Hi & _); by apply elem_of_nil in Hi|].
    split; [intros f t p Hf; by apply elem_of_nil in Hf|].
    split; intros (x & Hx & _); by apply elem_of_nil in Hx.
  - cbn [index_blocks]. unfold parsing_block.
    destruct (parse_files_spec files self [] []) as (nt & nd & td & -> & Hres); [done|].
    rewrite app_nil_l in Hres.
    destruct (IH (BSBI (term_id_map self ++ nt) (doc_id_map self ++ nd)))
      as (nt' & nd' & indices & -> & Hasc & Hfrom & Hto & Hne).
    cbn [term_id_map doc_id_map] in *.
    destruct (write_to_index_termIds td) as [Hw1 Hw2].
    destruct (fmap_eq_elem_of _ _ _ _ Hres) as [Hr1 Hr2].
    exists (nt ++ nt'), (nd ++ nd'), (write_to_index td new_writer :: indices).
    rewrite !app_assoc. split; [done|]. split; [by constructor|].
    split; [|split; [|split]].
    + intros t (index & [->|Hi]%elem_of_cons & Ht).
      * apply Hw2 in Ht as [d Hd]. destruct (Hr1 _ Hd) as ([term path] & Htok & Heq).
        injection Heq as Ht _. cbn [fst term_id_map] in Ht.
        exists term. split; [by apply IdMap_get_str_app|].
        exists files, path. split; [left | done].
      * destruct (Hfrom t) as (term & Hstr & f & p & Hf & Hp); [eauto|].
        exists term. split; [done|]. exists f, p. split; [by right | done].
    + intros f term path [->|Hf]%elem_of_cons Htok.
      * destruct (Hr2 _ Htok) as ([t d] & Htd & Heq).
        injection Heq as Ht _. cbn [fst term_id_map] in Ht.
        exists t, (write_to_index td new_writer). split; [left|].
        split; [apply Hw2; eauto | by apply IdMap_get_str_app].
      * destruct (Hto f term path Hf Htok) as (t & index & Hi & Ht & Hstr).
        exists t, index. split; [by right | done].
    + intros (index & [->|Hi]%elem_of_cons & Hnil).
      * exists files. split; [left|]. intros Hempty. rewrite Hempty in Hres.
        destruct td as [|x td]; [|done]. apply Hnil. by vm_compute.
      * destruct Hne as [Hne _]. destruct Hne as (f & Hf & Hfn); [eauto|].
        exists f. split; [by right | done].
    + intros (f & [->|Hf]%elem_of_cons & Hfn).
      * exists (write_to_index td new_writer). split; [left|].
        destruct (block_tokens files) as [|[term path] toks] eqn:Etok; [done|].
        destruct (Hr2 (term, path)) as ([t d] & Htd & _); [left|].
        assert (Ht : t ∈ termId <$> appended (write_to_index td new_writer))
          by (apply Hw2; eauto).
        intros Hnil. rewrite Hnil in Ht. by apply elem_of_nil in Ht.
      * destruct Hne as [_ Hne]. destruct Hne as (index & Hi & Hnil); [eauto|].
        exists index. split; [by right | done].
Qed.

(** X13.  A run of [do_indexing] over the blocks of a collection only extends the
    two maps; the term ids of the merged index are strictly ascending, and
    they are the ids of the tokens of the collection: each one names a token
    of some block, and each token of a block is named by one.  The run ends
    normally exactly when some block has a token; otherwise it ends in the
    [StopIteration] of [merge_index], with nothing written to the merged
    index. *)
Theorem do_indexing_terms (self : BSBIIndex) (blocks : list (list (string * string))) :
  exists new_terms new_docs merged_index outcome,
    do_indexing self blocks
    = (BSBI (term_id_map self ++ new_terms) (doc_id_map self ++ new_docs),
       merged_index, outcome)
    /\ ascending (appended merged_index)
    /\ (forall t, t ∈ termId <$> appended merged_index ->
                  exists term, names_token (term_id_map self ++ new_terms) blocks t term)
    /\ (forall files term path,
          files ∈ blocks -> (term, path) ∈ block_tokens files ->
          exists t, t ∈ termId <$> appended merged_index
                    /\ IdMap.get_str (term_id_map self ++ new_terms) t = Ok term)
    /\ (outcome = Ok tt <-> exists files, files ∈ blocks /\ block_tokens files <> [])
    /\ (outcome <> Ok tt -> outcome = Raise StopIteration /\ appended merged_index = []).
Proof.
  unfold do_indexing.
  destruct (index_blocks_spec blocks self)
    as (nt & nd & indices & -> & Hasc & Hfrom & Hto & Hne).
  pose proof (merge_index_appended (open_reader <$> indices) new_writer) as Happ.
  destruct (grouped_stream_heapq_merge (triples <$> (open_reader <$> indices)))
    as [Hsorted Hids].
  { rewrite !Forall_fmap. eapply Forall_impl; [exact Hasc|]. done. }
  assert (Hids' : forall t,
             t ∈ termId <$> grouped_stream (heapq_merge (triples <$> (open_reader <$> indices)))
             <-> exists index, index ∈ indices /\ t ∈ termId <$> appended index).
  { intros t. rewrite Hids. split.
    - intros (it & (r & -> & (w & -> & Hw)%list_elem_of_fmap)%list_elem_of_fmap & Ht).
      eauto.
    - intros (w & Hw & Ht). exists (appended w). split; [|done].
      apply list_elem_of_fmap. exists (open_reader w). split; [done|].
      by apply list_elem_of_fmap_2. }
  destruct (heapq_merge_spec (triples <$> (open_reader <$> indices))) as [Hperm _].
  assert (Hok : snd (merge_index (open_reader <$> indices) new_writer) = Ok tt
                <-> exists index, index ∈ indices /\ appended index <> []).
  { unfold merge_index.
    destruct (heapq_merge (triples <$> (open_reader <$> indices))) as [|first rest].
    - split; [done|]. intros (w & Hw & Hnil). exfalso.
      symmetry in Hperm. apply Permutation_nil_r in Hperm.
      destruct (appended w) as [|x l] eqn:Ew; [done|].
      assert (Hx : x ∈ concat (triples <$> (open_reader <$> indices))).
      { apply elem_of_concat. exists (x :: l). split; [left|].
        apply list_elem_of_fmap. exists (open_reader w). split; [by cbn; rewrite Ew|].
        by apply list_elem_of_fmap_2. }
      rewrite Hperm in Hx. by apply elem_of_nil in Hx.
    - destruct (fold_left merge_step rest (new_writer, first)) as [w [[c p] f]].
      split; [|done]. intros _.
      assert (Hx : first ∈ concat (triples <$> (open_reader <$> indices)))
        by (rewrite <- Hperm; left).
      apply elem_of_concat in Hx as (l & Hx & Hl).
      apply list_elem_of_fmap in Hl as (r & -> & (w' & -> & Hw')%list_elem_of_fmap).
      exists w'. split; [done|]. intros Hnil. cbn in Hx. rewrite Hnil in Hx.
      by apply elem_of_nil in Hx. }
  assert (Hfail : snd (merge_index (open_reader <$> indices) new_writer) <> Ok tt ->
                  snd (merge_index (open_reader <$> indices) new_writer) = Raise StopIteration
                  /\ appended (fst (merge_index (open_reader <$> indices) new_writer)) = []).
  { unfold merge_index.
    destruct (heapq_merge (triples <$> (open_reader <$> indices))) as [|first rest].
    - done.
    - destruct (fold_left merge_step rest (new_writer, first)) as [w [[c p] f]]. done. }
  destruct (merge_index (open_reader <$> indices) new_writer) as [merged outcome].
  cbn [fst snd appended new_writer app] in *.
  exists nt, nd, merged, outcome. split; [done|]. rewrite Happ.
  split; [exact Hsorted|]. split; [|split; [|split]].
  - intros t Ht. apply Hfrom. by apply Hids'.
  - intros files term path Hf Htok.
    destruct (Hto files term path Hf Htok) as (t & index & Hi & Ht & Hstr).
    exists t. split; [|done]. apply Hids'. eauto.
  - by rewrite Hok, Hne.
  - rewrite <- Happ. exact Hfail.
Qed.

End Indexing.

Example do_indexing_two_blocks :
  @do_indexing example_externals (BSBI [] [])
    [[("A", "dog")]; [("B", "fish"); ("C", "dog")]]
  = (BSBI ["dog"; "fish"] ["A"; "B"; "C"],
     Writer [(0, [0; 2], [1; 1]); (1, [1], [1])]
            (list_to_map [(0, 1); (1, 1); (2, 1)]),
     Ok tt).
Proof. vm_compute. reflexivity. Qed.

Example do_indexing_empty_collection :
  @do_indexing example_externals (BSBI [] []) []
  = (BSBI [] [], new_writer, Raise StopIteration).
Proof. reflexivity. Qed.

(** ** Retrieval after retrieval, and the unguarded logarithm *)

Section RetrievalMore.
Context `{externals}.

Lemma covers_app (m e : IdMap.t) (idx : InvertedIndexReader) :
  covers m idx -> covers (m ++ e) idx.
Proof.
  unfold covers. intros Hc. eapply Forall_impl; [exact Hc|].
  simpl. intros x Hx. rewrite length_app. lia.
Qed.

Lemma ranked_top_after inner self idx N new k' scored' terms k :
  covers (term_id_map self) idx ->
  fst (ranked_top self k' scored') = BSBI (term_id_map self ++ new) (doc_id_map self) ->
  snd (ranked_top (fst (ranked_top self k' scored')) k
         (score_terms inner idx N
            (term_id_map (fst (ranked_top self k' scored'))) [] terms))
  = snd (ranked_top self k (score_terms inner idx N (term_id_map self) [] terms)).
Proof.
  intros Hc ->. unfold ranked_top. cbn [snd fst term_id_map doc_id_map].
  rewrite (score_terms_known inner (term_id_map self) idx N terms Hc new []).
  pose proof (score_terms_known inner (term_id_map self) idx N terms Hc [] []) as Hs.
  rewrite app_nil_r in Hs. by rewrite Hs.
Qed.

(** X14.  An earlier query, whatever it registered, changes no later answer, and
    the index stays covered by the vocabulary. *)
Theorem retrieve_after_retrieve self idx query1 k1 query2 k2 k1' b' :
  covers (term_id_map self) idx ->
  let after := fst (retrieve_tfidf self idx query1 k1) in
  covers (term_id_map after) idx
  /\ snd (retrieve_tfidf after idx query2 k2) = snd (retrieve_tfidf self idx query2 k2)
  /\ snd (retrieve_bm25 after idx query2 k2 k1' b')
     = snd (retrieve_bm25 self idx query2 k2 k1' b').
Proof.
  intros Hc after. subst after.
  rewrite !retrieve_tfidf_shape, !retrieve_bm25_shape.
  set (N := Z.of_nat (size (reader_doc_length idx))).
  destruct (score_terms_registers tfidf_postings idx N (term_id_map self) []
              (pre_processing_text query1)) as (new & Hnew & _).
  assert (Hfst : fst (ranked_top self k1
                        (score_terms tfidf_postings idx N (term_id_map self) []
                           (pre_processing_text query1)))
                 = BSBI (term_id_map self ++ new) (doc_id_map self)).
  { unfold ranked_top. cbn [fst]. by rewrite Hnew. }
  split; [|split].
  - rewrite Hfst. cbn [term_id_map]. by apply covers_app.
  - by apply (ranked_top_after tfidf_postings self idx N new).
  - by apply (ranked_top_after bm25_postings self idx N new).
Qed.

(** X15.  The inner loop of TF-IDF never raises; the inner loop of BM25 raises
    [ValueError] exactly when some posting has a term frequency of 0 or
    less, for it takes the logarithm without a guard. *)
Theorem bm25_postings_unguarded idf scores posts :
  (exists scores', tfidf_postings idf scores posts = Ok scores')
  /\ (bm25_postings idf scores posts = Raise ValueError
      <-> Exists (fun tf => tf <= 0) posts.*2)
  /\ (forall e, bm25_postings idf scores posts = Raise e -> e = ValueError).
Proof.
  split; [rewrite tfidf_postings_spec; eauto|].
  revert scores. induction posts as [|[doc_id tf] posts IH]; intros scores.
  - cbn [bm25_postings]. split; [|done]. split; [done|]. intros Hex. inversion Hex.
  - cbn [bm25_postings]. rewrite fmap_cons. cbn [snd]. unfold math_log10_int.
    destruct (tf <=? 0) eqn:E.
    + split; [|by intros e [= <-]]. split; [intros _; left; lia | done].
    + rewrite bind_Ok. destruct (IH (dict_add scores doc_id
                                       (PrimFloat.mul (PrimFloat.add 1 (log10_int tf)) idf)))
        as [IH1 IH2].
      split; [|exact IH2]. rewrite IH1. split; [by right|].
      intros [Hx|Hx]%Exists_cons; [lia | done].
Qed.

End RetrievalMore.

Example retrieve_bm25_zero_tf :
  snd (@retrieve_tfidf example_externals toy_self
         (Reader [(1, [0; 1], [1; 0])] (<[0 := 1]> (<[1 := 1]> ∅))) "dog" 10)
  = Ok [(0%float, "A"); (0%float, "B")]
  /\ snd (@retrieve_bm25 example_externals toy_self
            (Reader [(1, [0; 1], [1; 0])] (<[0 := 1]> (<[1 := 1]> ∅))) "dog" 10 1.5 0.75)
     = Raise ValueError.
Proof. split; vm_compute; reflexivity. Qed.

Lemma retrieve_after_retrieve_witness :
  snd (@retrieve_tfidf example_externals
         (fst (@retrieve_tfidf example_externals toy_self toy_index "xyzzy" 10))
         toy_index "fish" 10)
  = snd (@retrieve_tfidf example_externals toy_self toy_index "fish" 10).
Proof.
  destruct (@retrieve_after_retrieve example_externals toy_self toy_index
              "xyzzy" 10 "fish" 10 1.5 0.75 toy_covers) as (_ & Heq & _).
  exact Heq.
Defined.

(** ** Pagination *)

Lemma slice_nonneg {A : Type} (a b : Z) (l : list A) :
  0 <= a <= b ->
  slice a b l = take (Z.to_nat (b - a)) (drop (Z.to_nat a) l).
Proof.
  intros Hab. unfold slice, slice_bound.
  destruct (Z.ltb_spec a 0); [lia|]. destruct (Z.ltb_spec b 0); [lia|].
  set (n := Z.of_nat (length l)).
  destruct (Z.le_gt_cases n a) as [Hna|Hna].
  - rewrite (Z.min_r a n) by lia. rewrite !drop_ge by lia. by rewrite !take_nil.
  - rewrite (Z.min_l a n) by lia.
    destruct (Z.le_gt_cases b n) as [Hbn|Hbn].
    + by rewrite (Z.min_l b n) by lia.
    + rewrite (Z.min_r b n) by lia.
      rewrite !take_ge; [done | |]; rewrite length_drop; lia.
Qed.

Lemma ceil_div_spec (a b : Z) :
  0 < b -> 0 <= a -> (ceil_div a b - 1) * b < a <= ceil_div a b * b.
Proof.
  intros Hb Ha. unfold ceil_div.
  pose proof (Z.div_mod (- a) b ltac:(lia)). pose proof (Z.mod_pos_bound (- a) b Hb). nia.
Qed.

Lemma paginate_data {A : Type} (items : list A) (page limit : Z) :
  0 < limit -> 1 <= page ->
  exists r, paginate items page limit = Some r
            /\ data r = take (Z.to_nat limit) (drop (Z.to_nat ((page - 1) * limit)) items).
Proof.
  intros Hl Hp. unfold paginate.
  destruct (Z.ltb_spec page 1); [lia|]. destruct (Z.eqb_spec limit 0); [lia|].
  eexists. split; [reflexivity|]. cbn [data].
  rewrite slice_nonneg by nia. do 2 f_equal. lia.
Qed.

(** X16.  [paginate] raises exactly for [limit = 0].  For a positive limit a
    page below 1 is served as page 1, the page holds the items from
    [(page - 1) * limit] on, at most [limit] of them, and [last_page] is the
    least number of pages, 1 at least, that hold all items. *)
Theorem paginate_page {A : Type} (items : list A) (page limit : Z) :
  (paginate items page limit = None <-> limit = 0)
  /\ (0 < limit ->
      exists r,
        paginate items page limit = Some r
        /\ current_page r = Z.max 1 page
        /\ per_page r = limit
        /\ total r = Z.of_nat (length items)
        /\ data r = take (Z.to_nat limit)
                      (drop (Z.to_nat ((Z.max 1 page - 1) * limit)) items)
        /\ Z.of_nat (length (data r)) <= limit
        /\ 1 <= last_page r
        /\ Z.of_nat (length items) <= last_page r * limit
        /\ (1 < last_page r -> (last_page r - 1) * limit < Z.of_nat (length items))
        /\ (last_page r < Z.max 1 page -> data r = [])).
Proof.
  split.
  - unfold paginate. destruct (Z.eqb_spec limit 0); [done|]. split; [done | lia].
  - intros Hl. unfold paginate. destruct (Z.eqb_spec limit 0); [lia|].
    pose proof (ceil_div_spec (Z.of_nat (length items)) limit Hl ltac:(lia)) as Hceil.
    set (c := ceil_div (Z.of_nat (length items)) limit) in *.
    assert (Hpage : (if page <? 1 then 1 else page) = Z.max 1 page)
      by (destruct (Z.ltb_spec page 1); lia).
    rewrite Hpage. set (pg := Z.max 1 page) in *. assert (1 <= pg) by lia.
    assert (Hn0 : 0 <= c) by nia.
    eexists. split; [reflexivity|]. cbn [current_page per_page total data last_page].
    rewrite slice_nonneg by nia.
    replace (pg * limit - (pg - 1) * limit) with limit by lia.
    repeat split; try done.
    + rewrite length_take. lia.
    + destruct (Z.eqb_spec c 0); lia.
    + destruct (Z.eqb_spec c 0); nia.
    + destruct (Z.eqb_spec c 0); [lia|]. intros _. lia.
    + intros Hlast. rewrite drop_ge; [by rewrite take_nil|].
      destruct (Z.eqb_spec c 0); nia.
Qed.

Lemma concat_pages {A : Type} (items : list A) (limit : Z) (k : nat) :
  0 < limit ->
  concat ((fun i => take (Z.to_nat limit) (drop (Z.to_nat ((i - 1) * limit)) items))
            <$> seqZ 1 (Z.of_nat k))
  = take (k * Z.to_nat limit) items.
Proof.
  intros Hl. induction k as [|k IH]; [reflexivity|].
  rewrite seqZ_S, fmap_app, concat_app, IH. cbn [fmap list_fmap concat].
  rewrite app_nil_r.
  replace (Z.to_nat ((1 + Z.of_nat k - 1) * limit)) with (k * Z.to_nat limit)%nat by nia.
  replace (S k * Z.to_nat limit)%nat with (k * Z.to_nat limit + Z.to_nat limit)%nat by lia.
  by rewrite take_take_drop.
Qed.

(** X17.  For a positive limit, the pages from 1 to [last_page], one after the
    other, are the whole list. *)
Theorem paginate_pages_cover {A : Type} (items : list A) (limit : Z) :
  0 < limit ->
  exists n,
    (forall page, exists r, paginate items page limit = Some r /\ last_page r = n)
    /\ concat ((fun i => from_option data [] (paginate items i limit)) <$> seqZ 1 n)
       = items.
Proof.
  intros Hl.
  pose proof (ceil_div_spec (Z.of_nat (length items)) limit Hl ltac:(lia)) as Hceil.
  set (c := ceil_div (Z.of_nat (length items)) limit) in *.
  exists (if c =? 0 then 1 else c). split.
  - intros page. unfold paginate. destruct (Z.eqb_spec limit 0); [lia|].
    eexists. split; reflexivity.
  - assert (Hn : exists k : nat, (if c =? 0 then 1 else c) = Z.of_nat k
                                 /\ (length items <= k * Z.to_nat limit)%nat).
    { exists (Z.to_nat (if c =? 0 then 1 else c)).
      destruct (Z.eqb_spec c 0); split; nia. }
    destruct Hn as (k & -> & Hk).
    transitivity (concat ((fun i => take (Z.to_nat limit)
                                      (drop (Z.to_nat ((i - 1) * limit)) items))
                            <$> seqZ 1 (Z.of_nat k))).
    + f_equal. apply list_fmap_ext. intros j i Hi.
      apply lookup_seqZ in Hi as [-> _].
      destruct (paginate_data items (1 + Z.of_nat j) limit Hl ltac:(lia)) as (r & -> & Hr).
      exact Hr.
    + rewrite concat_pages by done. by rewrite take_ge.
Qed.

Lemma paginate_pages_cover_witness :
  exists n,
    concat ((fun i => from_option data [] (paginate [1; 2; 3; 4; 5] i 2)) <$> seqZ 1 n)
    = [1; 2; 3; 4; 5].
Proof.
  destruct (paginate_pages_cover [1; 2; 3; 4; 5] 2) as (n & _ & Hn); [lia|].
  by exists n.
Defined.

Example paginate_third_page :
  paginate [1; 2; 3; 4; 5] 3 2 = Some (Paginated 3 3 2 5 [5]).
Proof. reflexivity. Qed.

Example paginate_empty :
  paginate (@nil Z) 1 10 = Some (Paginated 1 1 10 0 []).
Proof. reflexivity. Qed.
